(** * catalog-sniper: a shallow embedding of [src/main.js]

    The program polls a cursor-paginated catalog API, drops the items whose
    id is already known for the output file, and writes the merged list back.

    Modelling decisions, all read off [src/main.js]:
    - JavaScript values that the code inspects (ids, names, sub-item types)
      are primitives, [jsval]; numbers are the integral ones.  On primitives
      the [SameValueZero] comparison of [Set.prototype.has] is plain equality.
    - Upstream payloads and persisted documents are taken at the schema the
      code reads: a payload has [data] and [nextPageCursor], an item has
      [id], [name], [bundledItems], a sub-item has [type] and [id].  A
      [data] array may also hold a [null], at which the callback throws.
    - A [Set] lives in a heap and is passed by reference, a plain object
      used as a dictionary is a [gmap], arrays are lists.
    - The network is a script: what every [https.get] of every [fetchJSON]
      call ends in.  Timers show up as [Sleep] events of the trace.
    - [None] from a computation means that the script says nothing about the
      next request (or that a reference dangles); JavaScript exceptions are
      explicit values.
    - Console output is not modelled. *)

From stdpp Require Import base option list gmap sets strings pretty.

Set Warnings "-clear-no-such-hyp".

Open Scope string_scope.
Open Scope list_scope.
Open Scope nat_scope.

(** ** JavaScript primitive values *)

Inductive jsval :=
| JUndefined
| JNull
| JBool (b : bool)
| JNum (n : Z)
| JStr (s : string).

#[global] Instance jsval_eq_dec : EqDecision jsval.
Proof. solve_decision. Defined.

Definition jsval_enc (v : jsval) : unit + (unit + (bool + (Z + string))) :=
  match v with
  | JUndefined => inl tt
  | JNull => inr (inl tt)
  | JBool b => inr (inr (inl b))
  | JNum n => inr (inr (inr (inl n)))
  | JStr s => inr (inr (inr (inr s)))
  end.

Definition jsval_dec (x : unit + (unit + (bool + (Z + string)))) : jsval :=
  match x with
  | inl _ => JUndefined
  | inr (inl _) => JNull
  | inr (inr (inl b)) => JBool b
  | inr (inr (inr (inl n))) => JNum n
  | inr (inr (inr (inr s))) => JStr s
  end.

#[global] Instance jsval_countable : Countable jsval.
Proof.
  apply (inj_countable' jsval_enc jsval_dec).
  intros []; reflexivity.
Defined.

(** [ToBoolean]: what [if (v)] and [v && ...] test. *)
Definition truthy (v : jsval) : bool :=
  match v with
  | JUndefined | JNull => false
  | JBool b => b
  | JNum n => negb (n =? 0)%Z
  | JStr s => negb (String.eqb s "")
  end.

(** ** Data model *)

(** A sub-item reference of an upstream item. *)
Record SubItem := mkSub {
  sub_type : jsval;
  sub_id : jsval;
}.

(** An upstream item; [item_bundledItems = None] when the field is absent
    or null. *)
Record CatalogItem := mkItem {
  item_id : jsval;
  item_name : jsval;
  item_bundledItems : option (list SubItem);
}.

(** A persisted record; [rec_bundledItems = None] when the object has no
    such field. *)
Record PersistedRecord := mkRecord {
  rec_id : jsval;
  rec_name : jsval;
  rec_bundledItems : option (gmap string (list jsval));
}.

(** ** Record construction (fetchAPI, lines 108-121) *)

(** [b.type !== "UserOutfit" && b.id] *)
Definition retained (b : SubItem) : bool :=
  bool_decide (sub_type b ≠ JStr "UserOutfit") && truthy (sub_id b).

(** The callback of [item.bundledItems.forEach]; the state is the object
    [bundled] and the local [counter]. *)
Definition addBundled (st : gmap string (list jsval) * nat) (b : SubItem)
  : gmap string (list jsval) * nat :=
  let '(bundled, counter) := st in
  if retained b then
    let key := pretty counter in
    let bucket := default [] (bundled !! key) in
    (<[key := bucket ++ [sub_id b]]> bundled, S counter)
  else (bundled, counter).

Definition bundle (bs : list SubItem) : gmap string (list jsval) * nat :=
  foldl addBundled (∅, 1) bs.

(** [const record = { id: item.id, name: item.name }; if (...) {...}] *)
Definition makeRecord (item : CatalogItem) : PersistedRecord :=
  let record := mkRecord (item_id item) (item_name item) None in
  match item_bundledItems item with
  | Some bs =>
      if bool_decide (length bs ≠ 0) then
        let bundled := (bundle bs).1 in
        if bool_decide (size bundled ≠ 0)
        then mkRecord (rec_id record) (rec_name record) (Some bundled)
        else record
      else record
  | None => record
  end.

(** ** The world the program runs in *)

(** Why [fetchJSON] rejects: the four [reject(...)] calls of the source. *)
Inductive fetch_error :=
| NetworkError (e : string)      (* [reject(e)] of the 'error' handler *)
| RequestTimeout                 (* [new Error("Request timeout")] *)
| HttpStatus (statusCode : Z)    (* [new Error(`HTTP ${res.statusCode}`)] *)
| JsonParseError.                (* [new Error("JSON parse error")] *)

(** A parsed response, an object; [payload_data = None] when [res.data] is
    missing or not an array. *)
Record Payload := mkPayload {
  payload_data : option (list CatalogItem);
  nextPageCursor : jsval;
}.

(** A response text: [JSON.parse] throws on it, or yields a payload, or
    yields an object whose [data] array holds a [null] after the entries
    [before] (what stands behind the [null] is never read). *)
Inductive body :=
| Garbled
| Json (p : Payload)
| JsonNullEntry (before : list CatalogItem).

(** How one [https.get] ends: an 'error' event, the 30000 ms timer firing
    before anything else, or a response read to its end. *)
Inductive outcome :=
| ErrorEvent (e : string)
| TimerFires
| Responds (statusCode : Z) (b : body).

Inductive event :=
| Get (url : string)
| Sleep (ms : Z).

(** Why [loadData] ends in its [catch]: the read throws, [JSON.parse] throws,
    the content is [null], or [content.data] is truthy without a [map]. *)
Inductive load_failure :=
| ReadThrows
| ParseThrows
| ContentNull
| DataNotArray.

(** The object that [saveData] writes; [lastUpdate] is the instant that the
    ISO string renders. *)
Record CatalogDocument := mkDoc {
  keyword : jsval;
  totalItems : nat;
  lastUpdate : Z;
  doc_data : list PersistedRecord;
}.

(** What a file of the disk holds, as [loadData] sees it: [NoData] is a JSON
    value whose [data] is absent or falsy, [Document] one whose [data] is an
    array of records.  [JSON.parse] gives back what [JSON.stringify] was
    given. *)
Inductive blob :=
| Broken (why : load_failure)
| NoData
| Document (d : CatalogDocument).

Definition loc := nat.

Record world := mkWorld {
  net : list (list outcome);     (* one script per [fetchJSON] call *)
  disk : gmap string blob;
  readonly : gset string;        (* files on which [writeFileSync] throws *)
  heap : list (gset jsval);      (* the [Set] objects *)
  clock : Z;                     (* what [new Date()] reads *)
  trace : list event;
}.

Definition set_net (n : list (list outcome)) (w : world) : world :=
  mkWorld n (disk w) (readonly w) (heap w) (clock w) (trace w).
Definition set_disk (d : gmap string blob) (w : world) : world :=
  mkWorld (net w) d (readonly w) (heap w) (clock w) (trace w).
Definition set_heap (h : list (gset jsval)) (w : world) : world :=
  mkWorld (net w) (disk w) (readonly w) h (clock w) (trace w).

(** The time the timers of a run of events take. *)
Definition elapsed (evs : list event) : Z :=
  foldr (λ ev t, match ev with Sleep ms => (ms + t)%Z | Get _ => t end) 0%Z evs.

(** Events are appended to the trace; the clock moves on by their delays. *)
Definition emit (evs : list event) (w : world) : world :=
  mkWorld (net w) (disk w) (readonly w) (heap w)
          (clock w + elapsed evs)%Z (trace w ++ evs).

(** Computations: state passing over the world, [None] when stuck. *)
Definition M (A : Type) : Type := world → option (A * world).

#[global] Instance M_ret : MRet M := λ A x w, Some (x, w).
#[global] Instance M_bind : MBind M := λ A B f m w,
  match m w with
  | Some (x, w') => f x w'
  | None => None
  end.

Definition stuck {A} : M A := λ _, None.

Fixpoint foldM {A B} (f : A → B → M A) (a : A) (l : list B) : M A :=
  match l with
  | [] => mret a
  | x :: l' => a' ← f a x; foldM f a' l'
  end.

(** [new Set(vs)], [s.has(v)], [s.add(v)] *)
Definition Set_new (vs : list jsval) : M loc := λ w,
  Some (length (heap w), set_heap (heap w ++ [list_to_set vs]) w).
Definition Set_has (l : loc) (v : jsval) : M bool := λ w,
  match heap w !! l with
  | Some s => Some (bool_decide (v ∈@{gset jsval} s), w)
  | None => None
  end.
Definition Set_add (l : loc) (v : jsval) : M unit := λ w,
  match heap w !! l with
  | Some s => Some (tt, set_heap (<[l := {[v]} ∪ s]> (heap w)) w)
  | None => None
  end.

(** [await new Promise(r => setTimeout(r, ms))] *)
Definition sleep (ms : Z) : M unit := λ w, Some (tt, emit [Sleep ms] w).

(** ** fetchJSON (lines 56-87) *)

(** What the promise settles with: a payload, an object with a [null] in
    its [data] (see [body]), or an error. *)
Inductive settled :=
| Resolved (p : Payload)
| ResolvedNullEntry (before : list CatalogItem)
| Rejected (e : fetch_error).

(** The local function [tryFetch], run against the script of the call. *)
Fixpoint tryFetch (url : string) (retries attempt : Z) (script : list outcome)
  : option (settled * list event) :=
  match script with
  | [] => None
  | TimerFires :: _ => Some (Rejected RequestTimeout, [Get url])
  | Responds statusCode b :: _ =>
      if bool_decide (statusCode ≠ 200%Z)
      then Some (Rejected (HttpStatus statusCode), [Get url])
      else match b with
           | Json p => Some (Resolved p, [Get url])
           | JsonNullEntry before => Some (ResolvedNullEntry before, [Get url])
           | Garbled => Some (Rejected JsonParseError, [Get url])
           end
  | ErrorEvent e :: script' =>
      if bool_decide (attempt < retries)%Z
      then '(r, evs) ← tryFetch url retries (attempt + 1)%Z script';
           Some (r, Get url :: Sleep (2000 * attempt)%Z :: evs)
      else Some (Rejected (NetworkError e), [Get url])
  end.

Definition fetchJSON (url : string) (retries : Z) : M settled := λ w,
  match net w with
  | [] => None
  | script :: net' =>
      '(r, evs) ← tryFetch url retries 1 script;
      Some (r, emit evs (set_net net' w))
  end.

(** ** loadData and saveData (lines 26-54) *)

(** The object [{ items, ids }]; [ed_ids] is a reference to a [Set]. *)
Record ExistingData := mkExisting {
  ed_items : list PersistedRecord;
  ed_ids : loc;
}.

(** The first two cases return from inside the [try], with
    [items = content.data || []]; the last is the [return] after the [catch],
    reached when the file does not exist or something threw. *)
Definition loadData (file : string) : M ExistingData := λ w,
  match disk w !! file with
  | Some (Document d) =>
      let items := doc_data d in
      (ids ← Set_new (rec_id <$> items); mret (mkExisting items ids)) w
  | Some NoData =>
      (ids ← Set_new (rec_id <$> []); mret (mkExisting [] ids)) w
  | Some (Broken _) | None =>
      (ids ← Set_new []; mret (mkExisting [] ids)) w
  end.

(** [writeFileSync] throws on a read-only file: the [catch] returns false.
    A write that fails after the file was opened, and so emptied, is not
    among the failures modelled. *)

Definition saveData (items : list PersistedRecord) (file : string) : M bool := λ w,
  let output := mkDoc JNull (length items) (clock w) items in
  if bool_decide (file ∈ readonly w)
  then Some (false, w)
  else Some (true, set_disk (<[file := Document output]> (disk w)) w).

(** ** fetchAPI (lines 89-138) *)

Record Api := mkApi {
  api_name : string;
  api_url : string;
  outputFile : string;
}.

(** The locals [allItems], [newCount], [duplicateCount], which are also the
    fields of the object returned. *)
Record FetchResult := mkResult {
  fr_items : list PersistedRecord;
  newCount : nat;
  duplicateCount : nat;
}.

(** The callback of [res.data.forEach], entered with an entry that is an
    object.  Entered with [null] it throws at [item.id], before it has done
    anything: the loop of [fetchAPI] below has that case. *)
Definition onItem (existingData : ExistingData) (acc : FetchResult) (item : CatalogItem)
  : M FetchResult :=
  known ← Set_has (ed_ids existingData) (item_id item);
  if (known : bool) then
    mret (mkResult (fr_items acc) (newCount acc) (S (duplicateCount acc)))
  else
    let record := makeRecord item in
    _ ← Set_add (ed_ids existingData) (item_id item);
    mret (mkResult (fr_items acc ++ [record]) (S (newCount acc)) (duplicateCount acc)).

(** Code units that [String.prototype.trim] strips (those below 256). *)
Definition js_space (c : Ascii.ascii) : bool :=
  let n := Ascii.nat_of_ascii c in
  (9 <=? n) && (n <=? 13) || (n =? 32) || (n =? 160).

Fixpoint blank (s : string) : bool :=
  match s with
  | EmptyString => true
  | String c s' => js_space c && blank s'
  end.

(** [ToString], as a template literal applies it. *)
Definition toString (v : jsval) : string :=
  match v with
  | JUndefined => "undefined"
  | JNull => "null"
  | JBool b => if b then "true" else "false"
  | JNum n => pretty n
  | JStr s => s
  end.

(** [cursor ? `${api.url}&Cursor=${cursor}` : api.url] *)
Definition pageUrl (api : Api) (cursor : jsval) : string :=
  if truthy cursor then api_url api +:+ "&Cursor=" +:+ toString cursor else api_url api.

(** [cursor && cursor.trim() !== ""]; on a truthy cursor that is no string
    [trim] is not a function, the [catch] takes over and the loop is left. *)
Definition another (cursor : jsval) : bool :=
  match cursor with
  | JStr s => truthy cursor && negb (blank s)
  | _ => false
  end.

(** The [do ... while] loop inside the [try]; a rejected [fetchJSON] lands in
    the [catch], after which the function returns what it has.  So does the
    [TypeError] of the callback at a [null] entry: the entries before it have
    been handled by then, their records pushed and their ids added, and
    neither the cursor is read nor the pause made.  The fuel is the number
    of scripts left, one of which every turn uses up. *)
Fixpoint pages (fuel : nat) (api : Api) (existingData : ExistingData)
    (cursor : jsval) (acc : FetchResult) : M FetchResult :=
  match fuel with
  | 0 => stuck
  | S fuel' =>
      res ← fetchJSON (pageUrl api cursor) 3;
      match res with
      | Rejected _ => mret acc
      | ResolvedNullEntry before => foldM (onItem existingData) acc before
      | Resolved p =>
          acc' ← match payload_data p with
                 | Some items => foldM (onItem existingData) acc items
                 | None => mret acc
                 end;
          let cursor' := nextPageCursor p in
          _ ← sleep 1000;
          if another cursor'
          then pages fuel' api existingData cursor' acc'
          else mret acc'
      end
  end.

Definition fetchAPI (api : Api) (existingData : ExistingData) : M FetchResult := λ w,
  pages (length (net w)) api existingData (JStr "") (mkResult [] 0 0) w.

(** ** processAPIs (lines 140-175) *)

Definition APIs : list Api := [
  mkApi "Basic API"
    "https://catalog.roproxy.com/v1/search/items/details?Category=12&Subcategory=39&Limit=30"
    "emotedata.json";
  mkApi "Latest API"
    "https://catalog.roproxy.com/v1/search/items/details?Category=12&Subcategory=39&Limit=30&salesTypeFilter=1&SortType=3"
    "emotedata.json";
  mkApi "Animation API"
    "https://catalog.roproxy.com/v1/search/items/details?Category=12&Subcategory=38&salesTypeFilter=1&Limit=30"
    "animationdata.json"
].

(** [acc[k] = acc[k] || []; acc[k].push(api)] on an object whose keys keep
    their insertion order (file names are no array indices). *)
Fixpoint pushTo (k : string) (api : Api) (acc : list (string * list Api))
  : list (string * list Api) :=
  match acc with
  | [] => [(k, [api])]
  | (k', l) :: acc' =>
      if bool_decide (k' = k) then (k', l ++ [api]) :: acc'
      else (k', l) :: pushTo k api acc'
  end.

Definition grouped (apis : list Api) : list (string * list Api) :=
  foldl (λ acc api, pushTo (outputFile api) api acc) [] apis.

Record TargetResult := mkTarget {
  success : bool;
  total : nat;
  newTotal : nat;
  dupTotal : nat;
}.

(** The locals [allItems], [newTotal], [dupTotal] of one target. *)
Record Merge := mkMerge {
  allItems : list PersistedRecord;
  mg_newTotal : nat;
  mg_dupTotal : nat;
}.

(** The body of [for (const api of apis)]: every call gets the same object
    [existingData]. *)
Definition perApi (existingData : ExistingData) (m : Merge) (api : Api) : M Merge :=
  result ← fetchAPI api existingData;
  mret (mkMerge (allItems m ++ fr_items result)
                (mg_newTotal m + newCount result)
                (mg_dupTotal m + duplicateCount result)).

(** The body of [for (const [file, apis] of Object.entries(grouped))]. *)
Definition processTarget (file : string) (apis : list Api) : M TargetResult :=
  existingData ← loadData file;
  m ← foldM (perApi existingData) (mkMerge (ed_items existingData) 0 0) apis;
  saved ← saveData (allItems m) file;
  mret (mkTarget saved (length (allItems m)) (mg_newTotal m) (mg_dupTotal m)).

(** [results[file] = {...}] adds an entry at the end: the keys of [grouped]
    are distinct. *)
Definition processAPIs : M (list (string * TargetResult)) :=
  foldM (λ results '(file, apis),
           r ← processTarget file apis;
           mret (results ++ [(file, r)]))
        [] (grouped APIs).

(** ** main (lines 177-200) *)

(** The loop over [Object.entries(results)]: [allOk] starts true and is
    cleared by every entry whose [success] is false. *)
Definition allOk (results : list (string * TargetResult)) : bool :=
  foldl (λ ok '(_, r), if negb (success r) then false else ok) true results.

(** [process.exit(allOk ? 0 : 1)]; the result is the exit code.  The [catch]
    of [main] has nothing to catch here: no modelled call throws. *)
Definition main : M Z :=
  results ← processAPIs;
  mret (if allOk results then 0%Z else 1%Z).

(** * Pure views of the effectful code

    Definitions used to state and prove the properties below.  They restate
    parts of the functions above without the world. *)

(** The sub-items that pass the filter of line 114, in their order. *)
Definition kept (bs : list SubItem) : list SubItem := List.filter retained bs.

(** What the last [https.get] of a call settles the promise with. *)
Definition verdict (o : outcome) : settled :=
  match o with
  | ErrorEvent e => Rejected (NetworkError e)
  | TimerFires => Rejected RequestTimeout
  | Responds statusCode b =>
      if bool_decide (statusCode ≠ 200%Z) then Rejected (HttpStatus statusCode)
      else match b with
           | Json p => Resolved p
           | JsonNullEntry before => ResolvedNullEntry before
           | Garbled => Rejected JsonParseError
           end
  end.

(** The requests and waits of [n] failed attempts numbered from [a] on. *)
Fixpoint backoff (url : string) (a : Z) (n : nat) : list event :=
  match n with
  | 0 => []
  | S n' => Get url :: Sleep (2000 * a)%Z :: backoff url (a + 1)%Z n'
  end.

(** The number of [https.get] calls of a run of events. *)
Definition attempts (evs : list event) : nat :=
  length (List.filter (λ ev, match ev with Get _ => true | Sleep _ => false end) evs).

(** The callback of [res.data.forEach] on the contents [s] of the [Set]. *)
Definition absorb (st : FetchResult * gset jsval) (item : CatalogItem)
  : FetchResult * gset jsval :=
  let '(acc, s) := st in
  if bool_decide (item_id item ∈ s)
  then (mkResult (fr_items acc) (newCount acc) (S (duplicateCount acc)), s)
  else (mkResult (fr_items acc ++ [makeRecord item]) (S (newCount acc)) (duplicateCount acc),
        {[item_id item]} ∪ s).

(** The items that [res.data.forEach] visits for a payload. *)
Definition visited (p : Payload) : list CatalogItem := default [] (payload_data p).

(** The control flow of the loop of [fetchAPI], which does not depend on the
    index: the items visited, the scripts left, the events. *)
Fixpoint walk (api : Api) (cursor : jsval) (n : list (list outcome))
  : option (list CatalogItem * list (list outcome) * list event) :=
  match n with
  | [] => None
  | script :: n' =>
      match tryFetch (pageUrl api cursor) 3 1 script with
      | None => None
      | Some (Rejected _, evs) => Some ([], n', evs)
      | Some (ResolvedNullEntry before, evs) => Some (before, n', evs)
      | Some (Resolved p, evs) =>
          if another (nextPageCursor p) then
            match walk api (nextPageCursor p) n' with
            | Some (items, n'', evs') =>
                Some (visited p ++ items, n'', evs ++ Sleep 1000 :: evs')
            | None => None
            end
          else Some (visited p, n', evs ++ [Sleep 1000])
      end
  end.

(** The same for the sources of one target, one after the other. *)
Fixpoint walks (apis : list Api) (n : list (list outcome))
  : option (list CatalogItem * list (list outcome) * list event) :=
  match apis with
  | [] => Some ([], n, [])
  | api :: apis' =>
      match walk api (JStr "") n with
      | Some (items, n', evs) =>
          match walks apis' n' with
          | Some (items', n'', evs') => Some (items ++ items', n'', evs ++ evs')
          | None => None
          end
      | None => None
      end
  end.

(** The world after a stretch of work: scripts left, events, heap. *)
Definition after (n : list (list outcome)) (evs : list event)
    (h : list (gset jsval)) (w : world) : world :=
  mkWorld n (disk w) (readonly w) h (clock w + elapsed evs)%Z (trace w ++ evs).

(** The items [loadData] finds for what the disk holds under a name. *)
Definition loaded (b : option blob) : list PersistedRecord :=
  match b with
  | Some (Document d) => doc_data d
  | _ => []
  end.

(** What a script settles with, whatever the URL. *)
Definition settles (script : list outcome) : option settled :=
  fst <$> tryFetch "" 3 1 script.

(** Counts and records of two stretches of one call, put together. *)
Definition fr_plus (acc r : FetchResult) : FetchResult :=
  mkResult (fr_items acc ++ fr_items r)
           (newCount acc + newCount r)
           (duplicateCount acc + duplicateCount r).

(** The ids of the document that a run left on the disk under a name. *)
Definition savedIds (file : string) (run : option (TargetResult * world))
  : option (list jsval) :=
  match run with
  | Some (_, w') =>
      match disk w' !! file with
      | Some (Document d) => Some (rec_id <$> doc_data d)
      | _ => None
      end
  | None => None
  end.

(** The loop of [processAPIs] from any [results] over any grouping. *)
Definition targetsLoop (results : list (string * TargetResult))
    (gs : list (string * list Api)) : M (list (string * TargetResult)) :=
  foldM (λ results '(file, apis),
           r ← processTarget file apis;
           mret (results ++ [(file, r)]))
        results gs.

(** The events of a call whose pages [ps] are each answered at the first
    attempt: one request per page, to the URL that carries the cursor of the
    page before, and the pause behind it. *)
Fixpoint requests (api : Api) (cursor : jsval) (ps : list Payload) : list event :=
  match ps with
  | [] => []
  | p :: ps' => Get (pageUrl api cursor) :: Sleep 1000 :: requests api (nextPageCursor p) ps'
  end.

(** Following the specification (4.3): the items that the paginator takes
    as new against the index [s], in their order: an item whose id is in the
    index is discarded, any other is taken and its id joins the index. *)
Fixpoint spec_new (s : gset jsval) (items : list CatalogItem) : list CatalogItem :=
  match items with
  | [] => []
  | item :: items' =>
      if bool_decide (item_id item ∈ s) then spec_new s items'
      else item :: spec_new ({[item_id item]} ∪ s) items'
  end.

(** The entries of the page in flight that were handled when a call was cut
    short: none when the request was rejected, the entries before the [null]
    when the callback threw; a payload of the schema cuts nothing short. *)
Definition inflight (f : settled) : option (list CatalogItem) :=
  match f with
  | Rejected _ => Some []
  | ResolvedNullEntry before => Some before
  | Resolved _ => None
  end.

(** * Properties *)

(** ** The record transformer *)

Lemma kept_snoc bs b :
  kept (bs ++ [b]) = kept bs ++ (if retained b then [b] else []).
Proof.
  unfold kept. rewrite List.filter_app. simpl. by destruct (retained b).
Qed.

Lemma bundle_snoc bs b : bundle (bs ++ [b]) = addBundled (bundle bs) b.
Proof. unfold bundle. by rewrite foldl_app. Qed.

(** The counter is one more than the number of sub-items kept so far, and
    the object holds one singleton bucket per sub-item kept, under the
    decimal rendering of its rank among the kept ones. *)
Lemma bundle_spec (bs : list SubItem) :
  (bundle bs).2 = S (length (kept bs)) ∧
  ∀ key ids,
    (bundle bs).1 !! key = Some ids ↔
    ∃ j b, kept bs !! j = Some b ∧ key = pretty (S j) ∧ ids = [sub_id b].
Proof.
  induction bs as [|b bs [IHc IHm]] using rev_ind.
  - split; [done|]. intros key ids. cbn. rewrite lookup_empty.
    split; [done|]. by intros (j & b & ? & _).
  - rewrite bundle_snoc, kept_snoc.
    destruct (bundle bs) as [m c] eqn:Hb. simpl in IHc, IHm. subst c.
    unfold addBundled. destruct (retained b) eqn:Hret; simpl.
    + assert (m !! pretty (S (length (kept bs))) = None) as Hfresh.
      { destruct (m !! pretty (S (length (kept bs)))) as [v|] eqn:Hv; [|done].
        apply IHm in Hv as (j & b' & Hj & Heq & _).
        apply (inj pretty) in Heq. apply lookup_lt_Some in Hj. lia. }
      rewrite Hfresh. simpl. split; [rewrite length_app; simpl; lia|].
      intros key ids. rewrite lookup_insert. case_decide as Hk.
      * subst key. split.
        -- intros [= <-]. exists (length (kept bs)), b. split_and!; [|done..].
           by rewrite lookup_app_r, Nat.sub_diag.
        -- intros (j & b' & Hj & Heq & ->). apply (inj pretty) in Heq.
           injection Heq as <-.
           rewrite lookup_app_r, Nat.sub_diag in Hj by done.
           by injection Hj as <-.
      * rewrite IHm. split.
        -- intros (j & b' & Hj & -> & ->). exists j, b'. split_and!; [|done..].
           by apply lookup_app_l_Some.
        -- intros (j & b' & Hj & -> & ->). exists j, b'. split_and!; [|done..].
           apply lookup_app_Some in Hj as [Hj|[Hlen Hj]]; [done|].
           apply list_lookup_singleton_Some in Hj as [Hj _].
           exfalso. apply Hk. f_equal. lia.
    + rewrite app_nil_r. done.
Qed.

Lemma bundle_empty_iff (bs : list SubItem) :
  (bundle bs).1 = ∅ ↔ kept bs = [].
Proof.
  destruct (bundle_spec bs) as [_ Hm]. split.
  - intros Hempty. destruct (kept bs) as [|b l] eqn:Hk; [done|].
    assert ((bundle bs).1 !! pretty 1 = Some [sub_id b]) as Hl.
    { apply Hm. by exists 0, b. }
    by rewrite Hempty, lookup_empty in Hl.
  - intros Hk. apply map_eq. intros key. rewrite lookup_empty.
    destruct ((bundle bs).1 !! key) as [ids|] eqn:Hl; [|done].
    apply Hm in Hl as (j & b & Hj & _). by rewrite Hk in Hj.
Qed.

(** What [makeRecord] stores under [bundledItems]. *)
Lemma makeRecord_bundledItems (item : CatalogItem) :
  rec_id (makeRecord item) = item_id item ∧
  rec_name (makeRecord item) = item_name item ∧
  rec_bundledItems (makeRecord item) =
    match item_bundledItems item with
    | Some bs => if decide (kept bs = []) then None else Some (bundle bs).1
    | None => None
    end.
Proof.
  unfold makeRecord. destruct (item_bundledItems item) as [bs|]; [|done].
  case_bool_decide as Hlen.
  - case_bool_decide as Hsize; simpl.
    + split_and!; [done..|]. case_decide as Hk; [|done].
      apply bundle_empty_iff in Hk. rewrite Hk in Hsize. by rewrite map_size_empty in Hsize.
    + split_and!; [done..|]. case_decide as Hk; [done|].
      exfalso. apply Hk, bundle_empty_iff, map_size_empty_inv. lia.
  - simpl. split_and!; [done..|]. destruct bs; [|done]. by rewrite decide_True.
Qed.

Lemma kept_none (bs : list SubItem) :
  Forall (λ b, sub_type b = JStr "UserOutfit" ∨ truthy (sub_id b) = false) bs →
  kept bs = [].
Proof.
  unfold kept. induction 1 as [|b bs Hb _ IH]; [done|].
  simpl. replace (retained b) with false; [done|].
  unfold retained. destruct Hb as [-> | ->]; [|by rewrite andb_false_r].
  by rewrite bool_decide_false by (by intros []).
Qed.

(** C8: an item without sub-items, or all of whose sub-items are dropped
    (the type is "UserOutfit", or the id is null or otherwise falsy), gives
    a record that has no [bundledItems] field at all. *)
Theorem makeRecord_omits_empty_bundle (item : CatalogItem) :
  match item_bundledItems item with
  | None => True
  | Some bs =>
      Forall (λ b, sub_type b = JStr "UserOutfit" ∨ truthy (sub_id b) = false) bs
  end →
  makeRecord item = mkRecord (item_id item) (item_name item) None.
Proof.
  intros Hall.
  destruct (makeRecord_bundledItems item) as (Hid & Hname & Hb).
  destruct (makeRecord item) as [i n b]. simpl in *. subst i n. f_equal.
  rewrite Hb. destruct (item_bundledItems item) as [bs|]; [|done].
  by rewrite decide_True by by apply kept_none.
Qed.

Lemma makeRecord_omits_empty_bundle_witness :
  makeRecord (mkItem (JNum 1) (JStr "a")
                     (Some [mkSub (JStr "UserOutfit") (JNum 5); mkSub (JStr "Hat") JNull]))
  = mkRecord (JNum 1) (JStr "a") None.
Proof.
  apply (makeRecord_omits_empty_bundle
           (mkItem (JNum 1) (JStr "a")
                   (Some [mkSub (JStr "UserOutfit") (JNum 5); mkSub (JStr "Hat") JNull]))).
  simpl. constructor; [by left|]. constructor; [by right|]. constructor.
Defined.

(** The example of the transformer in the specification: one "UserOutfit"
    and one "Hat", both with ids, give one key, bound to the id of the hat. *)
Example makeRecord_outfit_and_hat :
  makeRecord (mkItem (JNum 1) (JStr "a")
                (Some [mkSub (JStr "UserOutfit") (JNum 5); mkSub (JStr "Hat") (JNum 7)]))
  = mkRecord (JNum 1) (JStr "a") (Some {[ "1" := [JNum 7] ]}).
Proof. vm_compute. reflexivity. Qed.

(** C10: every bucket of a [bundledItems] object holds exactly one
    sub-item id. *)
Theorem bundledItems_buckets_singleton (item : CatalogItem)
    (m : gmap string (list jsval)) (key : string) (ids : list jsval) :
  rec_bundledItems (makeRecord item) = Some m →
  m !! key = Some ids →
  ∃ v, ids = [v].
Proof.
  intros Hm Hkey. destruct (makeRecord_bundledItems item) as (_ & _ & Hb).
  rewrite Hm in Hb. destruct (item_bundledItems item) as [bs|]; [|done].
  case_decide; [done|]. injection Hb as ->.
  apply bundle_spec in Hkey as (j & b & _ & _ & ->). by exists (sub_id b).
Qed.

Lemma bundledItems_buckets_singleton_witness :
  ∃ v, [JNum 7] = [v].
Proof.
  apply (bundledItems_buckets_singleton
           (mkItem (JNum 1) (JStr "a")
                   (Some [mkSub (JStr "UserOutfit") (JNum 5); mkSub (JStr "Hat") (JNum 7)]))
           {[ "1" := [JNum 7] ]} "1" [JNum 7]).
  - vm_compute. reflexivity.
  - vm_compute. reflexivity.
Defined.

(** C6, as the code has it: the counter advances on retained sub-items only,
    so the keys are the ranks "1", "2", ... of the retained sub-items among
    the retained ones, each bound to that sub-item's id; sub-items that are
    dropped take no key. *)
Theorem makeRecord_keys_rank_among_kept (item : CatalogItem) (bs : list SubItem) :
  item_bundledItems item = Some bs →
  match rec_bundledItems (makeRecord item) with
  | None => kept bs = []
  | Some m =>
      m !! "1" = (λ b, [sub_id b]) <$> head (kept bs) ∧
      ∀ key ids,
        m !! key = Some ids ↔
        ∃ j b, kept bs !! j = Some b ∧ key = pretty (S j) ∧ ids = [sub_id b]
  end.
Proof.
  intros Hbs. destruct (makeRecord_bundledItems item) as (_ & _ & Hb).
  rewrite Hb, Hbs. case_decide as Hk; [done|].
  destruct (bundle_spec bs) as [_ Hm]. split; [|done].
  destruct (kept bs) as [|b l] eqn:Hkept; [done|]. simpl.
  apply Hm. by exists 0, b.
Qed.

Lemma makeRecord_keys_rank_among_kept_witness :
  match rec_bundledItems
          (makeRecord (mkItem (JNum 1) (JStr "a")
             (Some [mkSub (JStr "UserOutfit") (JNum 5); mkSub (JStr "Hat") (JNum 7)]))) with
  | None => kept [mkSub (JStr "UserOutfit") (JNum 5); mkSub (JStr "Hat") (JNum 7)] = []
  | Some m =>
      m !! "1" = (λ b, [sub_id b])
                   <$> head (kept [mkSub (JStr "UserOutfit") (JNum 5); mkSub (JStr "Hat") (JNum 7)]) ∧
      ∀ key ids,
        m !! key = Some ids ↔
        ∃ j b, kept [mkSub (JStr "UserOutfit") (JNum 5); mkSub (JStr "Hat") (JNum 7)] !! j = Some b
               ∧ key = pretty (S j) ∧ ids = [sub_id b]
  end.
Proof.
  apply (makeRecord_keys_rank_among_kept
           (mkItem (JNum 1) (JStr "a")
                   (Some [mkSub (JStr "UserOutfit") (JNum 5); mkSub (JStr "Hat") (JNum 7)]))).
  reflexivity.
Defined.

(** C6, as the claim has it, fails: a retained sub-item at original position
    2, behind a dropped one, does not get the key "2" but the key "1". *)
Lemma makeRecord_key_not_original_index :
  let outfit := mkSub (JStr "UserOutfit") (JNum 5) in
  let hat := mkSub (JStr "Hat") (JNum 7) in
  let item := mkItem (JNum 1) (JStr "a") (Some [outfit; hat]) in
  [outfit; hat] !! 1 = Some hat ∧ retained hat = true ∧
  ∃ m, rec_bundledItems (makeRecord item) = Some m ∧
       m !! pretty 2 = None ∧ m !! pretty 1 = Some [sub_id hat].
Proof.
  split_and!; [done..|]. eexists. split; [reflexivity|].
  split; vm_compute; reflexivity.
Qed.

(** ** The fetcher *)

(** A timeout, a bad status and a body that does not parse end the call at
    the first attempt, whatever the rest of the script. *)
Example fetchJSON_timeout_no_retry :
  fst <$> tryFetch "u" 3 1 [TimerFires; Responds 200 (Json (mkPayload None JNull))]
  = Some (Rejected RequestTimeout) ∧
  snd <$> tryFetch "u" 3 1 [TimerFires; Responds 200 (Json (mkPayload None JNull))]
  = Some [Get "u"].
Proof. split; reflexivity. Qed.

Example fetchJSON_status_no_retry :
  tryFetch "u" 3 1 [Responds 503 Garbled; Responds 200 (Json (mkPayload None JNull))]
  = Some (Rejected (HttpStatus 503), [Get "u"]).
Proof. reflexivity. Qed.

Example fetchJSON_parse_no_retry :
  tryFetch "u" 3 1 [Responds 200 Garbled; Responds 200 (Json (mkPayload None JNull))]
  = Some (Rejected JsonParseError, [Get "u"]).
Proof. reflexivity. Qed.

Example fetchJSON_two_errors_then_answer :
  tryFetch "u" 3 1 [ErrorEvent "ECONNRESET"; ErrorEvent "EPIPE";
                    Responds 200 (Json (mkPayload None JNull))]
  = Some (Resolved (mkPayload None JNull),
          [Get "u"; Sleep 2000; Get "u"; Sleep 4000; Get "u"]).
Proof. reflexivity. Qed.

Lemma tryFetch_last url retries a o rest :
  (∀ e, o = ErrorEvent e → (retries ≤ a)%Z) →
  tryFetch url retries a (o :: rest) = Some (verdict o, [Get url]).
Proof.
  intros Hlast. destruct o as [e| |statusCode b]; simpl; [|done|].
  - rewrite bool_decide_false; [done|]. specialize (Hlast e eq_refl). lia.
  - case_bool_decide; [done|]. by destruct b.
Qed.

(** Network errors below the limit are retried, each after a wait of 2000 ms
    times the number of the attempt that failed. *)
Lemma tryFetch_errors (es : list string) url retries a script :
  (a + Z.of_nat (length es) ≤ retries)%Z →
  tryFetch url retries a ((ErrorEvent <$> es) ++ script) =
    '(r, evs) ← tryFetch url retries (a + Z.of_nat (length es))%Z script;
    Some (r, backoff url a (length es) ++ evs).
Proof.
  revert a. induction es as [|e es IH]; intros a Hle.
  - simpl. rewrite Z.add_0_r. by destruct (tryFetch url retries a script) as [[r evs]|].
  - simpl in *. rewrite bool_decide_true by lia.
    rewrite IH by lia.
    replace (a + 1 + Z.of_nat (length es))%Z with (a + Z.pos (Pos.of_succ_nat (length es)))%Z by lia.
    by destruct (tryFetch url retries _ script) as [[r evs]|].
Qed.

Lemma attempts_backoff url a n evs :
  attempts (backoff url a n ++ evs) = n + attempts evs.
Proof.
  revert a. induction n as [|n IH]; intros a; [done|].
  unfold attempts in *. simpl. by rewrite IH.
Qed.

(** C7: a call whose first attempts end in network errors and whose last
    attempt ends in [o] settles with the verdict of [o]: the errors before
    were retried, each after 2000 ms times its attempt number; a timeout, a
    status other than 200 and a body that does not parse reject at once; a
    network error is final when the attempts are used up, and it is the one
    that the call rejects with.  No more than [retries] attempts are made. *)
Theorem fetchJSON_retry_policy (url : string) (retries : Z) (w : world)
    (es : list string) (o : outcome) (rest : list outcome) (net' : list (list outcome)) :
  net w = ((ErrorEvent <$> es) ++ o :: rest) :: net' →
  (es = [] ∨ Z.of_nat (length es) < retries)%Z →
  (∀ e, o = ErrorEvent e → (retries ≤ Z.of_nat (length es) + 1)%Z) →
  let evs := backoff url 1 (length es) ++ [Get url] in
  fetchJSON url retries w = Some (verdict o, emit evs (set_net net' w)) ∧
  attempts evs = S (length es) ∧
  ((1 ≤ retries)%Z → (Z.of_nat (attempts evs) ≤ retries)%Z).
Proof.
  intros Hnet Hretried Hlast evs. subst evs.
  assert (tryFetch url retries 1 ((ErrorEvent <$> es) ++ o :: rest)
          = Some (verdict o, backoff url 1 (length es) ++ [Get url])) as Hrun.
  { destruct Hretried as [-> | Hlt].
    - simpl. apply tryFetch_last. intros e He. specialize (Hlast e He). simpl in Hlast. lia.
    - rewrite tryFetch_errors by lia.
      rewrite tryFetch_last; [done|]. intros e He. specialize (Hlast e He). lia. }
  split_and!.
  - unfold fetchJSON. rewrite Hnet, Hrun. done.
  - rewrite attempts_backoff. unfold attempts. simpl. lia.
  - intros Hpos. rewrite attempts_backoff. unfold attempts. simpl.
    destruct Hretried as [-> | Hlt]; simpl; lia.
Qed.

Lemma fetchJSON_retry_policy_witness :
  let w := mkWorld [[ErrorEvent "ECONNRESET"; ErrorEvent "ECONNRESET"; ErrorEvent "EPIPE";
                     Responds 200 Garbled]] ∅ ∅ [] 0 [] in
  fetchJSON "u" 3 w
  = Some (Rejected (NetworkError "EPIPE"),
          emit [Get "u"; Sleep 2000; Get "u"; Sleep 4000; Get "u"] (set_net [] w)) ∧
  attempts [Get "u"; Sleep 2000; Get "u"; Sleep 4000; Get "u"] = 3 ∧
  ((1 ≤ 3)%Z → (Z.of_nat (attempts [Get "u"; Sleep 2000; Get "u"; Sleep 4000; Get "u"]) ≤ 3)%Z).
Proof.
  intros w.
  apply (fetchJSON_retry_policy "u" 3 w ["ECONNRESET"; "ECONNRESET"]
           (ErrorEvent "EPIPE") [Responds 200 Garbled] []).
  - reflexivity.
  - right. simpl. lia.
  - intros e _. simpl. lia.
Defined.

(** ** Loading and saving *)

(** C9: when the file is absent, or reading or parsing it fails, [loadData]
    returns an empty item list and a fresh empty index, and the disk is as it
    was; nothing is thrown. *)
Theorem loadData_recovers (file : string) (w : world) :
  (disk w !! file = None ∨ ∃ why, disk w !! file = Some (Broken why)) →
  ∃ ed w', loadData file w = Some (ed, w') ∧
           ed_items ed = [] ∧
           heap w' !! ed_ids ed = Some ∅ ∧
           disk w' = disk w.
Proof.
  intros Hfile. unfold loadData.
  assert ((heap w ++ [list_to_set []]) !! length (heap w) = Some (∅ : gset jsval)) as Hnew.
  { by rewrite lookup_app_r, Nat.sub_diag. }
  destruct Hfile as [-> | [why ->]]; by eexists _, _.
Qed.

Lemma loadData_recovers_witness :
  let w := mkWorld [] {[ "emotedata.json" := Broken ParseThrows ]} ∅ [] 0 [] in
  ∃ ed w', loadData "emotedata.json" w = Some (ed, w') ∧
           ed_items ed = [] ∧
           heap w' !! ed_ids ed = Some ∅ ∧
           disk w' = disk w.
Proof.
  intros w. apply (loadData_recovers "emotedata.json" w).
  right. exists ParseThrows. vm_compute. reflexivity.
Defined.

(** C5: whatever the items, [saveData] either writes a document whose
    [totalItems] is the length of its [data], computed from the items of this
    very call, or (the write throws) leaves the world alone and returns
    false. *)
Theorem saveData_totalItems (items : list PersistedRecord) (file : string) (w : world) :
  ∃ saved w', saveData items file w = Some (saved, w') ∧
    if (saved : bool)
    then ∃ d, disk w' !! file = Some (Document d) ∧
              doc_data d = items ∧ totalItems d = length (doc_data d)
    else w' = w.
Proof.
  unfold saveData. case_bool_decide.
  - by exists false, w.
  - eexists true, _. split; [done|]. eexists. split; [apply lookup_insert_eq|done].
Qed.

(** ** The paginator *)

Lemma elapsed_app (evs evs' : list event) :
  elapsed (evs ++ evs') = (elapsed evs + elapsed evs')%Z.
Proof.
  induction evs as [|[url|ms] evs IH]; simpl; [done|done|]. lia.
Qed.

Lemma after_after n1 e1 h1 n2 e2 h2 w :
  after n2 e2 h2 (after n1 e1 h1 w) = after n2 (e1 ++ e2) h2 w.
Proof.
  unfold after. simpl. f_equal; [|by rewrite app_assoc].
  rewrite elapsed_app. lia.
Qed.

Lemma after_id (w : world) : after (net w) [] (heap w) w = w.
Proof.
  destruct w. unfold after. simpl. f_equal; [lia|by rewrite app_nil_r].
Qed.

Lemma set_heap_as_after h w : set_heap h w = after (net w) [] h w.
Proof.
  destruct w. unfold after, set_heap. simpl. f_equal; [lia|by rewrite app_nil_r].
Qed.

Lemma bind_run {A B} (m : M A) (f : A → M B) (w : world) :
  (m ≫= f) w = match m w with Some (x, w') => f x w' | None => None end.
Proof. reflexivity. Qed.

Arguments absorb : simpl never.

(** One item against the index: the callback does what [absorb] does to the
    contents of the [Set] that [existingData.ids] refers to. *)
Lemma onItem_run ed acc item w (s : gset jsval) :
  heap w !! ed_ids ed = Some s →
  onItem ed acc item w =
    Some ((absorb (acc, s) item).1,
          set_heap (<[ed_ids ed := (absorb (acc, s) item).2]> (heap w)) w).
Proof.
  intros Hs. unfold onItem, absorb. rewrite bind_run. unfold Set_has. rewrite Hs.
  case_bool_decide; simpl.
  - rewrite list_insert_id by done. by destruct w.
  - rewrite bind_run. unfold Set_add. by rewrite Hs.
Qed.

Lemma foldM_onItem_run ed items : ∀ acc w (s : gset jsval),
  heap w !! ed_ids ed = Some s →
  foldM (onItem ed) acc items w =
    Some ((foldl absorb (acc, s) items).1,
          set_heap (<[ed_ids ed := (foldl absorb (acc, s) items).2]> (heap w)) w).
Proof.
  induction items as [|item items IH]; intros acc w s Hs; simpl.
  - rewrite list_insert_id by done. by destruct w.
  - rewrite bind_run, (onItem_run _ _ _ _ s) by done.
    destruct (absorb (acc, s) item) as [acc1 s1] eqn:Habs. simpl.
    rewrite (IH _ _ s1).
    + simpl. rewrite list_insert_insert_eq. by destruct w.
    + simpl. apply list_lookup_insert_eq. by eapply lookup_lt_Some.
Qed.

Lemma fetchJSON_run url retries w :
  fetchJSON url retries w =
    match net w with
    | [] => None
    | script :: n' =>
        match tryFetch url retries 1 script with
        | Some (r, evs) => Some (r, after n' evs (heap w) w)
        | None => None
        end
    end.
Proof.
  unfold fetchJSON. destruct (net w) as [|script n']; [done|].
  by destruct (tryFetch url retries 1 script) as [[r evs]|].
Qed.

Lemma forEach_run ed p acc w (s : gset jsval) :
  heap w !! ed_ids ed = Some s →
  match payload_data p with
  | Some items => foldM (onItem ed) acc items
  | None => mret acc
  end w =
    Some ((foldl absorb (acc, s) (visited p)).1,
          set_heap (<[ed_ids ed := (foldl absorb (acc, s) (visited p)).2]> (heap w)) w).
Proof.
  intros Hs. unfold visited. destruct (payload_data p) as [items|]; simpl.
  - by apply foldM_onItem_run.
  - rewrite list_insert_id by done. by destruct w.
Qed.

(** The loop of [fetchAPI] is its control flow, [walk], followed by the
    callback run over the items visited; the fuel is never what stops it. *)
Lemma pages_run fuel api ed : ∀ cursor acc w (s : gset jsval),
  heap w !! ed_ids ed = Some s →
  length (net w) ≤ fuel →
  pages fuel api ed cursor acc w =
    match walk api cursor (net w) with
    | Some (items, n', evs) =>
        Some ((foldl absorb (acc, s) items).1,
              after n' evs (<[ed_ids ed := (foldl absorb (acc, s) items).2]> (heap w)) w)
    | None => None
    end.
Proof.
  induction fuel as [|fuel IH]; intros cursor acc w s Hs Hlen.
  - destruct (net w); [done|simpl in Hlen; lia].
  - cbn [pages]. rewrite bind_run, fetchJSON_run.
    destruct (net w) as [|script n'] eqn:Hnet; [done|]. cbn [walk].
    destruct (tryFetch (pageUrl api cursor) 3 1 script) as [[[p|before|e] evs]|];
      [| | |done].
    + rewrite bind_run, (forEach_run ed p acc _ s) by done.
      rewrite bind_run. unfold sleep.
      set (st := foldl absorb (acc, s) (visited p)).
      assert (∀ items, foldl absorb (acc, s) (visited p ++ items) = foldl absorb st items)
        as Happ by (intros; apply foldl_app).
      destruct (another (nextPageCursor p)).
      * rewrite (IH _ _ _ st.2); cycle 1.
        { simpl. apply list_lookup_insert_eq. by eapply lookup_lt_Some. }
        { simpl in *. lia. }
        simpl. destruct (walk api (nextPageCursor p) n') as [[[items n''] evs']|]; [|done].
        rewrite Happ, <- surjective_pairing. simpl. rewrite list_insert_insert_eq.
        do 2 f_equal. unfold after, emit, set_heap. simpl. f_equal.
        -- rewrite elapsed_app. simpl. lia.
        -- by rewrite <- !app_assoc.
      * fold st. unfold mret, M_ret. do 2 f_equal.
        unfold after, emit, set_heap. simpl. f_equal.
        -- rewrite elapsed_app. simpl. lia.
        -- by rewrite <- !app_assoc.
    + by rewrite (foldM_onItem_run _ _ _ _ s).
    + simpl. rewrite list_insert_id by done. done.
Qed.

Lemma fetchAPI_run api ed w (s : gset jsval) :
  heap w !! ed_ids ed = Some s →
  fetchAPI api ed w =
    match walk api (JStr "") (net w) with
    | Some (items, n', evs) =>
        Some ((foldl absorb (mkResult [] 0 0, s) items).1,
              after n' evs
                (<[ed_ids ed := (foldl absorb (mkResult [] 0 0, s) items).2]> (heap w)) w)
    | None => None
    end.
Proof. intros Hs. unfold fetchAPI. by apply pages_run. Qed.

(** *** What the callback does to counts, records and index *)

Lemma fr_plus_empty acc : fr_plus acc (mkResult [] 0 0) = acc.
Proof.
  destruct acc. unfold fr_plus. simpl. by rewrite app_nil_r, !Nat.add_0_r.
Qed.

Lemma absorb_plus acc r s item :
  absorb (fr_plus acc r, s) item =
    (fr_plus acc (absorb (r, s) item).1, (absorb (r, s) item).2).
Proof.
  unfold absorb, fr_plus. case_bool_decide; simpl.
  - by rewrite Nat.add_succ_r.
  - by rewrite Nat.add_succ_r, app_assoc.
Qed.

Lemma absorb_fold_plus items : ∀ acc r s,
  foldl absorb (fr_plus acc r, s) items =
    (fr_plus acc (foldl absorb (r, s) items).1, (foldl absorb (r, s) items).2).
Proof.
  induction items as [|item items IH]; intros acc r s; [done|].
  cbn [foldl]. rewrite absorb_plus.
  destruct (absorb (r, s) item) as [r1 s1]. apply IH.
Qed.

(** A call may start from any counts: they are added to. *)
Lemma absorb_fold_shift items acc s :
  foldl absorb (acc, s) items =
    (fr_plus acc (foldl absorb (mkResult [] 0 0, s) items).1,
     (foldl absorb (mkResult [] 0 0, s) items).2).
Proof. by rewrite <- absorb_fold_plus, fr_plus_empty. Qed.

Lemma makeRecord_id item : rec_id (makeRecord item) = item_id item.
Proof. apply makeRecord_bundledItems. Qed.

(** From empty counts and index [s], the callback run over [items] leaves
    the index grown by the ids seen, counts every item once, and keeps, in
    order, one record for each id that was not in [s], without repeats. *)
Lemma absorb_fold_spec (items : list CatalogItem) (s : gset jsval) :
  let st := foldl absorb (mkResult [] 0 0, s) items in
  st.2 = s ∪ list_to_set (item_id <$> items) ∧
  newCount st.1 = length (fr_items st.1) ∧
  newCount st.1 + duplicateCount st.1 = length items ∧
  NoDup (rec_id <$> fr_items st.1) ∧
  (∀ x, x ∈ rec_id <$> fr_items st.1 ↔ x ∈ item_id <$> items ∧ x ∉ s).
Proof.
  induction items as [|item items IH] using rev_ind.
  - simpl. split_and!; [set_solver|done|done|constructor|]. set_solver.
  - simpl in IH. cbv zeta. rewrite foldl_app. cbn [foldl].
    destruct (foldl absorb (mkResult [] 0 0, s) items) as [r s1].
    simpl in IH. destruct IH as (-> & Hnew & Hcount & Hnodup & Hmem).
    rewrite fmap_app, length_app. simpl.
    unfold absorb. case_bool_decide as Hknown; simpl.
    + split_and!; [set_solver|done|lia|done|].
      intros x. rewrite Hmem. set_solver.
    + rewrite length_app, fmap_app. simpl. rewrite makeRecord_id.
      split_and!; [set_solver|lia|lia| |].
      * apply NoDup_app. split_and!; [done| |apply NoDup_singleton].
        intros x Hx ->%list_elem_of_singleton. apply Hmem in Hx. set_solver.
      * intros x. rewrite !elem_of_app, Hmem, !list_elem_of_singleton. set_solver.
Qed.

Lemma absorb_fold_dup_mono items : ∀ acc s,
  duplicateCount acc ≤ duplicateCount (foldl absorb (acc, s) items).1.
Proof.
  intros acc s. rewrite absorb_fold_shift. simpl. lia.
Qed.

(** An item whose id is in the index, or was seen earlier in the same run
    of the callback, is counted as a duplicate. *)
Lemma absorb_fold_dup_pos (l1 l2 : list CatalogItem) item (s : gset jsval) :
  item_id item ∈ s ∪ list_to_set (item_id <$> l1) →
  1 ≤ duplicateCount (foldl absorb (mkResult [] 0 0, s) (l1 ++ item :: l2)).1.
Proof.
  intros Hin. rewrite foldl_app. cbn [foldl].
  destruct (absorb_fold_spec l1 s) as (Hs & _). simpl in Hs.
  destruct (foldl absorb (mkResult [] 0 0, s) l1) as [r s1]. simpl in Hs. subst s1.
  unfold absorb at 2. rewrite bool_decide_true by done.
  etrans; [|apply absorb_fold_dup_mono]. simpl. lia.
Qed.

(** When every id is known already, nothing is new. *)
Lemma absorb_fold_all_known (items : list CatalogItem) (s : gset jsval) :
  (∀ x, x ∈ item_id <$> items → x ∈ s) →
  foldl absorb (mkResult [] 0 0, s) items = (mkResult [] 0 (length items), s).
Proof.
  intros Hall. destruct (absorb_fold_spec items s) as (Hs & Hnew & Hcount & _ & Hmem).
  destruct (foldl absorb (mkResult [] 0 0, s) items) as [[news n d] s1]. simpl in *.
  destruct news as [|r news].
  - simpl in Hnew. subst n. f_equal; [f_equal; lia|]. set_solver.
  - exfalso. destruct (Hmem (rec_id r)) as [Hm _].
    destruct Hm as [Hin Hnot]; [set_solver|]. by apply Hnot, Hall.
Qed.

(** ** The reconciler *)

Lemma loadData_run file w :
  loadData file w =
    Some (mkExisting (loaded (disk w !! file)) (length (heap w)),
          set_heap (heap w ++ [list_to_set (rec_id <$> loaded (disk w !! file))]) w).
Proof.
  unfold loadData. by destruct (disk w !! file) as [[why| |d]|].
Qed.

(** The sources of a target one after the other: the one [Set] is handed
    from call to call, so the calls together are the callback run over the
    items of all sources in a row. *)
Lemma foldM_perApi_run ed apis : ∀ m w (s : gset jsval),
  heap w !! ed_ids ed = Some s →
  foldM (perApi ed) m apis w =
    match walks apis (net w) with
    | Some (items, n', evs) =>
        let st := foldl absorb (mkResult [] 0 0, s) items in
        Some (mkMerge (allItems m ++ fr_items st.1)
                      (mg_newTotal m + newCount st.1)
                      (mg_dupTotal m + duplicateCount st.1),
              after n' evs (<[ed_ids ed := st.2]> (heap w)) w)
    | None => None
    end.
Proof.
  induction apis as [|api apis IH]; intros m w s Hs.
  - simpl. rewrite list_insert_id, after_id, app_nil_r, !Nat.add_0_r by done.
    by destruct m.
  - cbn [foldM walks]. rewrite bind_run. unfold perApi at 1.
    rewrite bind_run, (fetchAPI_run _ _ _ s) by done.
    destruct (walk api (JStr "") (net w)) as [[[items n'] evs]|]; [|done].
    destruct (foldl absorb (mkResult [] 0 0, s) items) as [r1 s1] eqn:Hst.
    cbn [mret M_ret fst snd]. rewrite (IH _ _ s1); cycle 1.
    { simpl. apply list_lookup_insert_eq. by eapply lookup_lt_Some. }
    simpl. destruct (walks apis n') as [[[items' n''] evs']|]; [|done].
    rewrite foldl_app, Hst, (absorb_fold_shift items' r1 s1). simpl.
    rewrite list_insert_insert_eq, after_after, <- app_assoc, <- !Nat.add_assoc.
    done.
Qed.

(** One target from load to save. *)
Lemma processTarget_run file apis w :
  processTarget file apis w =
    match walks apis (net w) with
    | Some (items, n', evs) =>
        let old := loaded (disk w !! file) in
        let st := foldl absorb (mkResult [] 0 0, list_to_set (rec_id <$> old)) items in
        let all := old ++ fr_items st.1 in
        match saveData all file (after n' evs (heap w ++ [st.2]) w) with
        | Some (saved, w') =>
            Some (mkTarget saved (length all) (newCount st.1) (duplicateCount st.1), w')
        | None => None
        end
    | None => None
    end.
Proof.
  unfold processTarget. rewrite bind_run, loadData_run, bind_run.
  rewrite (foldM_perApi_run _ _ _ _ (list_to_set (rec_id <$> loaded (disk w !! file)))); cycle 1.
  { simpl. by rewrite lookup_app_r, Nat.sub_diag. }
  simpl. destruct (walks apis (net w)) as [[[items n'] evs]|]; [|done].
  simpl. rewrite bind_run.
  replace (<[length (heap w) := _]> (heap w ++ _)) with
    (heap w ++ [(foldl absorb (mkResult [] 0 0,
                   list_to_set (rec_id <$> loaded (disk w !! file))) items).2]).
  - rewrite set_heap_as_after, after_after. simpl. done.
  - by rewrite insert_app_r_alt, Nat.sub_diag.
Qed.

(** *** Failure in the middle of a walk *)

(** What a script settles with does not depend on the URL asked for. *)
Lemma tryFetch_url url url' retries script : ∀ a,
  fst <$> tryFetch url retries a script = fst <$> tryFetch url' retries a script.
Proof.
  induction script as [|[e| |statusCode b] script IH]; intros a; simpl; [done| |done|].
  - case_bool_decide; [|done]. specialize (IH (a + 1)%Z).
    destruct (tryFetch url retries _ script) as [[r evs]|],
             (tryFetch url' retries _ script) as [[r' evs']|]; simpl in *; congruence.
  - case_bool_decide; [done|]. by destruct b.
Qed.

Lemma settles_tryFetch url script r :
  settles script = Some r → ∃ evs, tryFetch url 3 1 script = Some (r, evs).
Proof.
  unfold settles. rewrite (tryFetch_url "" url).
  destruct (tryFetch url 3 1 script) as [[r' evs]|]; [|done].
  intros [= <-]. by exists evs.
Qed.

Lemma spec_new_length items : ∀ s, length (spec_new s items) ≤ length items.
Proof.
  induction items as [|item items IH]; intros s; simpl; [done|].
  case_bool_decide; simpl; [specialize (IH s)|specialize (IH ({[item_id item]} ∪ s))]; lia.
Qed.

(** The callback run over [items] takes exactly the items of [spec_new]. *)
Lemma absorb_fold_new items : ∀ acc (s : gset jsval),
  foldl absorb (acc, s) items =
    (mkResult (fr_items acc ++ (makeRecord <$> spec_new s items))
              (newCount acc + length (spec_new s items))
              (duplicateCount acc + (length items - length (spec_new s items))),
     s ∪ list_to_set (item_id <$> items)).
Proof.
  induction items as [|item items IH]; intros acc s.
  - destruct acc. simpl. rewrite app_nil_r, !Nat.add_0_r. f_equal. set_solver.
  - cbn [foldl]. unfold absorb at 2. simpl spec_new.
    case_bool_decide; rewrite IH; simpl.
    + pose proof (spec_new_length items s). f_equal; [f_equal; lia|set_solver].
    + pose proof (spec_new_length items ({[item_id item]} ∪ s)).
      rewrite <- app_assoc. simpl. f_equal; [f_equal; lia|set_solver].
Qed.

Lemma makeRecord_ids_names (l : list CatalogItem) :
  rec_id <$> (makeRecord <$> l) = item_id <$> l ∧
  rec_name <$> (makeRecord <$> l) = item_name <$> l.
Proof.
  induction l as [|item l [IHi IHn]]; [done|].
  destruct (makeRecord_bundledItems item) as (Hid & Hname & _).
  rewrite !fmap_cons, IHi, IHn, Hid, Hname. done.
Qed.

(** Pages that resolve and name a next page are walked through; the walk
    ends at the first request that is rejected or whose data holds a [null],
    and the scripts behind it stay unused. *)
Lemma walk_until_cut api (scripts : list (list outcome)) (ps : list Payload)
    bad failure taken rest :
  Forall2 (λ script p, settles script = Some (Resolved p) ∧
                       another (nextPageCursor p) = true) scripts ps →
  settles bad = Some failure →
  inflight failure = Some taken →
  ∀ cursor, ∃ evs,
    walk api cursor (scripts ++ bad :: rest)
    = Some (concat (visited <$> ps) ++ taken, rest, evs).
Proof.
  intros Hgood Hbad Htaken.
  induction Hgood as [|script p scripts ps [Hp Hnext] _ IH]; intros cursor.
  - simpl. destruct (settles_tryFetch (pageUrl api cursor) _ _ Hbad) as [evs ->].
    destruct failure as [p|before|e]; simplify_eq/=; by eexists.
  - simpl. destruct (settles_tryFetch (pageUrl api cursor) _ _ Hp) as [evs ->].
    rewrite Hnext. destruct (IH (nextPageCursor p)) as [evs' ->].
    rewrite <- app_assoc. by eexists.
Qed.

(** C3, as the code has it: the first k-1 requests of a call resolve (each
    naming a next page) and request k cuts the call short.  [fetchAPI]
    returns normally all the same.  When request k is rejected, whatever the
    reason, nothing of page k is in flight, and the call returns exactly
    what pages 1 to k-1 gave: for each id that was not in the index, at its
    first occurrence and in upstream order, the record with that id and
    name; [newCount] is the number of these records, [duplicateCount] the
    number of the other items.  When page k parses and the callback throws at
    a [null] entry, the entries of page k before the [null] have been handled
    as well, and the call returns the records of pages 1 to k-1 followed by
    theirs.  The pages behind page k are not asked for. *)
Theorem fetchAPI_partial_failure (api : Api) (ed : ExistingData) (w : world)
    (s : gset jsval) (scripts : list (list outcome)) (ps : list Payload)
    (bad : list outcome) (failure : settled) (taken : list CatalogItem)
    (rest : list (list outcome)) :
  heap w !! ed_ids ed = Some s →
  net w = scripts ++ bad :: rest →
  Forall2 (λ script p, settles script = Some (Resolved p) ∧
                       another (nextPageCursor p) = true) scripts ps →
  settles bad = Some failure →
  inflight failure = Some taken →
  let items := concat (visited <$> ps) ++ taken in
  let news := spec_new s items in
  ∃ r w',
    fetchAPI api ed w = Some (r, w') ∧
    fr_items r = makeRecord <$> news ∧
    rec_id <$> fr_items r = item_id <$> news ∧
    rec_name <$> fr_items r = item_name <$> news ∧
    newCount r = length news ∧
    duplicateCount r = length items - length news ∧
    heap w' = <[ed_ids ed := s ∪ list_to_set (item_id <$> items)]> (heap w) ∧
    net w' = rest ∧ disk w' = disk w.
Proof.
  intros Hs Hnet Hgood Hbad Htaken items news.
  rewrite (fetchAPI_run _ _ _ s), Hnet by done.
  destruct (walk_until_cut api _ _ _ _ _ rest Hgood Hbad Htaken (JStr "")) as [evs ->].
  fold items. rewrite absorb_fold_new. fold news. simpl.
  destruct (makeRecord_ids_names news) as [Hids Hnames].
  by eexists _, _.
Qed.

Lemma fetchAPI_partial_failure_witness :
  let api := mkApi "Basic API" "https://catalog.example/items?Limit=30" "emotedata.json" in
  let p1 := mkPayload (Some [mkItem (JNum 1) (JStr "a") None; mkItem (JNum 2) (JStr "b") None])
                      (JStr "c1") in
  let p3 := mkPayload (Some [mkItem (JNum 3) (JStr "c") None]) JNull in
  let w := mkWorld [[Responds 200 (Json p1)]; [Responds 500 Garbled]; [Responds 200 (Json p3)]]
                   ∅ ∅ [{[JNum 2]}] 0 [] in
  let items := concat (visited <$> [p1]) ++ [] in
  let news := spec_new {[JNum 2]} items in
  ∃ r w',
    fetchAPI api (mkExisting [] 0) w = Some (r, w') ∧
    fr_items r = makeRecord <$> news ∧
    rec_id <$> fr_items r = item_id <$> news ∧
    rec_name <$> fr_items r = item_name <$> news ∧
    newCount r = length news ∧
    duplicateCount r = length items - length news ∧
    heap w' = <[0 := {[JNum 2]} ∪ list_to_set (item_id <$> items)]> (heap w) ∧
    net w' = [[Responds 200 (Json p3)]] ∧ disk w' = disk w.
Proof.
  intros api p1 p3 w.
  apply (fetchAPI_partial_failure api (mkExisting [] 0) w {[JNum 2]}
           [[Responds 200 (Json p1)]] [p1] [Responds 500 Garbled]
           (Rejected (HttpStatus 500)) [] [[Responds 200 (Json p3)]]).
  - reflexivity.
  - reflexivity.
  - constructor; [|constructor]. split; vm_compute; reflexivity.
  - vm_compute. reflexivity.
  - reflexivity.
Defined.

(** C3, as the claim has it, fails: page 2 of 3 parses and holds one item
    followed by [null]; the callback throws at the [null], and the call
    returns the record of page 1 and the record of page 2, not page 1's
    alone. *)
Lemma fetchAPI_keeps_entries_before_throw :
  let api := mkApi "Basic API" "https://catalog.example/items?Limit=30" "emotedata.json" in
  let i1 := mkItem (JNum 1) (JStr "a") None in
  let i2 := mkItem (JNum 2) (JStr "b") None in
  let w := mkWorld [[Responds 200 (Json (mkPayload (Some [i1]) (JStr "c1")))];
                    [Responds 200 (JsonNullEntry [i2])];
                    [Responds 200 (Json (mkPayload (Some [mkItem (JNum 3) (JStr "c") None]) JNull))]]
                   ∅ ∅ [∅] 0 [] in
  fst <$> fetchAPI api (mkExisting [] 0) w
  = Some (mkResult [mkRecord (JNum 1) (JStr "a") None; mkRecord (JNum 2) (JStr "b") None] 2 0) ∧
  mkResult [mkRecord (JNum 1) (JStr "a") None; mkRecord (JNum 2) (JStr "b") None] 2 0
  ≠ mkResult [mkRecord (JNum 1) (JStr "a") None] 1 0.
Proof. split; [vm_compute; reflexivity|done]. Qed.

(** *** Uniqueness of ids *)

Lemma saveData_run items file w :
  saveData items file w =
    Some (if bool_decide (file ∈ readonly w)
          then (false, w)
          else (true, set_disk (<[file := Document (mkDoc JNull (length items) (clock w) items)]>
                                  (disk w)) w)).
Proof. unfold saveData. by case_bool_decide. Qed.

(** A run that returns and saves: what it walked, and what it wrote. *)
Lemma processTarget_saved file apis w r w' :
  processTarget file apis w = Some (r, w') →
  ∃ items n' evs,
    walks apis (net w) = Some (items, n', evs) ∧
    let old := loaded (disk w !! file) in
    let st := foldl absorb (mkResult [] 0 0, list_to_set (rec_id <$> old)) items in
    total r = length (old ++ fr_items st.1) ∧
    newTotal r = newCount st.1 ∧
    dupTotal r = duplicateCount st.1 ∧
    if success r
    then ∃ d, disk w' !! file = Some (Document d) ∧ doc_data d = old ++ fr_items st.1
    else disk w' = disk w.
Proof.
  rewrite processTarget_run.
  destruct (walks apis (net w)) as [[[items n'] evs]|]; [|done].
  cbv zeta. rewrite saveData_run. intros Hrun. exists items, n', evs. split; [done|].
  case_bool_decide; injection Hrun as <- <-; simpl; split_and!; try done.
  eexists. by rewrite lookup_insert_eq.
Qed.

(** C4, as the code has it: ids that the loaded document holds twice are
    saved twice, since [loadData] takes the records as they are; when the
    loaded records are unique by id (as in an absent, unreadable or empty
    document, and in every document the program wrote from such a start),
    the document saved at the end of the run is unique by id too, whatever
    the sources return and wherever they fail. *)
Theorem processTarget_keeps_ids_unique (file : string) (apis : list Api)
    (w w' : world) (r : TargetResult) :
  processTarget file apis w = Some (r, w') →
  NoDup (rec_id <$> loaded (disk w !! file)) →
  success r = true →
  ∃ d, disk w' !! file = Some (Document d) ∧ NoDup (rec_id <$> doc_data d).
Proof.
  intros Hrun Hold Hsaved.
  destruct (processTarget_saved _ _ _ _ _ Hrun) as (items & n' & evs & _ & Hres).
  cbv zeta in Hres. destruct Hres as (_ & _ & _ & Hdisk). rewrite Hsaved in Hdisk.
  destruct Hdisk as (d & Hd & Hdata). exists d. split; [done|].
  rewrite Hdata, fmap_app.
  destruct (absorb_fold_spec items (list_to_set (rec_id <$> loaded (disk w !! file))))
    as (_ & _ & _ & Hnodup & Hmem).
  apply NoDup_app. split_and!; [done| |done].
  intros x Hx Hx'. apply Hmem in Hx' as [_ Hnot]. apply Hnot. set_solver.
Qed.

Lemma processTarget_keeps_ids_unique_witness :
  let api := mkApi "Basic API" "https://catalog.example/items?Limit=30" "emotedata.json" in
  let item n := mkItem (JNum n) (JStr "a") None in
  let w := mkWorld [[Responds 200 (Json (mkPayload (Some [item 2%Z; item 1%Z; item 2%Z]) JNull))]]
                   {[ "emotedata.json" :=
                        Document (mkDoc JNull 1 0 [mkRecord (JNum 1) (JStr "a") None]) ]}
                   ∅ [] 0 [] in
  ∃ r w', processTarget "emotedata.json" [api] w = Some (r, w') ∧
    ∃ d, disk w' !! "emotedata.json" = Some (Document d) ∧ NoDup (rec_id <$> doc_data d).
Proof.
  intros api item w.
  destruct (processTarget "emotedata.json" [api] w) as [[r w']|] eqn:Hrun;
    [|by vm_compute in Hrun].
  exists r, w'. split; [done|].
  apply (processTarget_keeps_ids_unique "emotedata.json" [api] w w' r Hrun).
  - vm_compute. repeat constructor. by intros ?%elem_of_nil.
  - vm_compute in Hrun. by injection Hrun as <- _.
Defined.

(** C4, as the claim has it, fails: a document that holds an id twice is
    loaded as it is, and the run saves the id twice. *)
Lemma processTarget_saves_loaded_repeats :
  let api := mkApi "Basic API" "https://catalog.example/items?Limit=30" "emotedata.json" in
  let old := mkRecord (JNum 1) (JStr "a") None in
  let w := mkWorld [[Responds 200 (Json (mkPayload (Some [mkItem (JNum 2) (JStr "b") None]) JNull))]]
                   {[ "emotedata.json" := Document (mkDoc JNull 2 0 [old; old]) ]}
                   ∅ [] 0 [] in
  savedIds "emotedata.json" (processTarget "emotedata.json" [api] w)
    = Some [JNum 1; JNum 1; JNum 2] ∧
  ¬ NoDup [JNum 1; JNum 1; JNum 2].
Proof.
  split; [vm_compute; reflexivity|].
  intros Hnodup. apply NoDup_cons in Hnodup as [Hnot _]. apply Hnot. by left.
Qed.

(** *** Two sources of one target *)

Lemma walk_first_page api cursor script rest p items n' evs :
  settles script = Some (Resolved p) →
  walk api cursor (script :: rest) = Some (items, n', evs) →
  ∃ more, items = visited p ++ more.
Proof.
  intros Hp. simpl. destruct (settles_tryFetch (pageUrl api cursor) _ _ Hp) as [evs0 ->].
  destruct (another (nextPageCursor p)).
  - destruct (walk api (nextPageCursor p) rest) as [[[more n''] evs']|]; [|done].
    intros [= <- _ _]. by exists more.
  - intros [= <- _ _]. exists []. by rewrite app_nil_r.
Qed.

Lemma filter_id_absent (x : jsval) (l : list PersistedRecord) :
  x ∉ rec_id <$> l → filter (λ rc, rec_id rc = x) l = [].
Proof.
  induction l as [|rc l IH]; [done|]. rewrite fmap_cons, not_elem_of_cons.
  intros [Hne Hl]. rewrite filter_cons_False by done. by apply IH.
Qed.

Lemma filter_id_once (x : jsval) (l : list PersistedRecord) :
  NoDup (rec_id <$> l) → x ∈ rec_id <$> l →
  length (filter (λ rc, rec_id rc = x) l) = 1.
Proof.
  induction l as [|rc l IH]; [by intros _ ?%elem_of_nil|].
  rewrite fmap_cons, NoDup_cons, elem_of_cons. intros [Hrc Hl] Hx.
  destruct (decide (rec_id rc = x)) as [Heq|Hne].
  - rewrite filter_cons_True by done. simpl. rewrite filter_id_absent; [done|]. by rewrite <- Heq.
  - rewrite filter_cons_False by done. apply IH; [done|]. by destruct Hx.
Qed.

(** C2: sources A and B feed one target, A first.  When the first page of B
    holds an item whose id A added in this run, the call for B counts at
    least one duplicate and does not return that id again; the total of the
    target is the count of A plus the count of B, so it grows by at least one
    over what A left; and the saved document holds that id exactly once. *)
Theorem processTarget_cross_source_dedup (file : string) (A B : Api)
    (w w1 w2 w' : world) (ed : ExistingData) (rA : FetchResult) (r : TargetResult)
    (script : list outcome) (rest : list (list outcome)) (p : Payload)
    (item : CatalogItem) :
  loadData file w = Some (ed, w1) →
  fetchAPI A ed w1 = Some (rA, w2) →
  item_id item ∈ rec_id <$> fr_items rA →
  net w2 = script :: rest →
  settles script = Some (Resolved p) →
  item ∈ visited p →
  processTarget file [A; B] w = Some (r, w') →
  (∃ rB w3,
     fetchAPI B ed w2 = Some (rB, w3) ∧
     1 ≤ duplicateCount rB ∧
     (item_id item ∉ rec_id <$> fr_items rB) ∧
     dupTotal r = duplicateCount rA + duplicateCount rB ∧
     newTotal r = newCount rA + newCount rB) ∧
  duplicateCount rA + 1 ≤ dupTotal r ∧
  (success r = true →
   ∃ d, disk w' !! file = Some (Document d) ∧
        length (filter (λ rc, rec_id rc = item_id item) (doc_data d)) = 1).
Proof.
  intros Hload HA Hadded Hnet Hp Hitem Hrun.
  rewrite loadData_run in Hload. injection Hload as <- <-.
  set (old := loaded (disk w !! file)) in *.
  set (s0 := list_to_set (rec_id <$> old) : gset jsval) in *.
  rewrite (fetchAPI_run _ _ _ s0) in HA by (simpl; by rewrite lookup_app_r, Nat.sub_diag).
  simpl in HA.
  destruct (processTarget_saved _ _ _ _ _ Hrun) as (items & n' & evs & Hwalks & Hres).
  simpl in Hwalks.
  destruct (walk A (JStr "") (net w)) as [[[itemsA nA] evsA]|]; [|done].
  injection HA as <- <-. simpl in Hnet. subst nA.
  destruct (walk B (JStr "") (script :: rest)) as [[[itemsB nB] evsB]|] eqn:HB; [|done].
  injection Hwalks as <- _ _.
  destruct (walk_first_page _ _ _ _ _ _ _ _ Hp HB) as [more ->].
  apply list_elem_of_split in Hitem as (pre & post & Hsplit).
  cbv zeta in Hres. fold old s0 in Hres. destruct Hres as (_ & Hnew & Hdup & Hdisk).
  destruct (absorb_fold_spec itemsA s0) as (HsA & _ & _ & _ & HmemA).
  apply HmemA in Hadded as [HinA Hfresh].
  rewrite app_nil_r, foldl_app in Hnew, Hdup.
  destruct (foldl absorb (mkResult [] 0 0, s0) itemsA) as [rA sA] eqn:HfoldA.
  simpl in HsA. rewrite (absorb_fold_shift _ rA sA) in Hnew, Hdup. simpl in Hnew, Hdup.
  assert (1 ≤ duplicateCount (foldl absorb (mkResult [] 0 0, sA) (visited p ++ more)).1)
    as HdupB.
  { rewrite Hsplit, <- app_assoc. simpl. apply absorb_fold_dup_pos. rewrite HsA. set_solver. }
  split_and!.
  - rewrite (fetchAPI_run _ _ _ sA); cycle 1.
    { simpl. rewrite insert_app_r_alt, Nat.sub_diag by done. simpl.
      by rewrite lookup_app_r, Nat.sub_diag. }
    cbn -[walk]. rewrite HB. eexists _, _. split; [done|]. simpl. split_and!; [done| |done|done].
    destruct (absorb_fold_spec (visited p ++ more) sA) as (_ & _ & _ & _ & HmemB).
    intros Hin. apply HmemB in Hin as [_ Hnot]. apply Hnot. rewrite HsA. set_solver.
  - simpl. lia.
  - intros Hsaved. rewrite Hsaved in Hdisk. destruct Hdisk as (d & Hd & Hdata).
    exists d. split; [done|]. rewrite Hdata, filter_app, length_app.
    rewrite filter_id_absent by (unfold s0 in Hfresh; set_solver).
    destruct (absorb_fold_spec (itemsA ++ (visited p ++ more) ++ []) s0)
      as (_ & _ & _ & Hnodup & Hmem).
    simpl. apply filter_id_once; [done|]. apply Hmem. split; [|done].
    rewrite fmap_app. set_solver.
Qed.

Lemma processTarget_cross_source_dedup_witness :
  let A := mkApi "Basic API" "https://catalog.example/items?Limit=30" "emotedata.json" in
  let B := mkApi "Latest API" "https://catalog.example/items?SortType=3" "emotedata.json" in
  let item := mkItem (JNum 7) (JStr "wave") None in
  let page := [Responds 200 (Json (mkPayload (Some [item; item]) JNull))] in
  let w := mkWorld [page; page] ∅ ∅ [] 0 [] in
  ∃ rA w2 r w',
    fetchAPI A (mkExisting [] 0) (set_heap [∅] w) = Some (rA, w2) ∧
    processTarget "emotedata.json" [A; B] w = Some (r, w') ∧
    (∃ rB w3,
       fetchAPI B (mkExisting [] 0) w2 = Some (rB, w3) ∧
       1 ≤ duplicateCount rB ∧
       (item_id item ∉ rec_id <$> fr_items rB) ∧
       dupTotal r = duplicateCount rA + duplicateCount rB ∧
       newTotal r = newCount rA + newCount rB) ∧
    duplicateCount rA + 1 ≤ dupTotal r ∧
    (success r = true →
     ∃ d, disk w' !! "emotedata.json" = Some (Document d) ∧
          length (filter (λ rc, rec_id rc = item_id item) (doc_data d)) = 1).
Proof.
  intros A B item page w.
  destruct (fetchAPI A (mkExisting [] 0) (set_heap [∅] w)) as [[rA w2]|] eqn:HA;
    [|by vm_compute in HA].
  destruct (processTarget "emotedata.json" [A; B] w) as [[r w']|] eqn:Hrun;
    [|by vm_compute in Hrun].
  exists rA, w2, r, w'. split; [done|]. split; [done|].
  apply (processTarget_cross_source_dedup "emotedata.json" A B w (set_heap [∅] w) w2 w'
           (mkExisting [] 0) rA r page [] (mkPayload (Some [item; item]) JNull) item).
  - reflexivity.
  - exact HA.
  - vm_compute in HA. injection HA as <- _. vm_compute. by left.
  - vm_compute in HA. by injection HA as _ <-.
  - vm_compute. reflexivity.
  - vm_compute. by left.
  - exact Hrun.
Defined.

(** *** Running twice *)

(** The paginator alone: a second call over the same upstream answers, with
    an index that holds what the first call left in its own, finds nothing
    new and counts every item it is given. *)
Lemma fetchAPI_rerun api ed ed2 w w1 w2 r1 (s s2 : gset jsval) :
  heap w !! ed_ids ed = Some s →
  fetchAPI api ed w = Some (r1, w1) →
  net w2 = net w →
  heap w2 !! ed_ids ed2 = Some s2 →
  (∀ x, x ∈ s → x ∈ s2) →
  (∀ x, x ∈ rec_id <$> fr_items r1 → x ∈ s2) →
  ∃ w2', fetchAPI api ed2 w2 = Some (mkResult [] 0 (newCount r1 + duplicateCount r1), w2').
Proof.
  intros Hs Hrun Hnet Hs2 Hold Hnew.
  rewrite (fetchAPI_run _ _ _ s) in Hrun by done.
  rewrite (fetchAPI_run _ _ _ s2), Hnet by done.
  destruct (walk api (JStr "") (net w)) as [[[items n'] evs]|]; [|done].
  injection Hrun as <- _.
  destruct (absorb_fold_spec items s) as (_ & _ & Hcount & _ & Hmem).
  rewrite absorb_fold_all_known.
  - simpl. rewrite Hcount. by eexists.
  - intros x Hx. destruct (decide (x ∈ s)); [by apply Hold|]. by apply Hnew, Hmem.
Qed.

(** C1, as the code has it: after a run that saved, a second run of the
    target over the same upstream answers returns too, finds nothing new,
    counts every item the sources return as a duplicate (as many as the first
    run counted new and duplicate together), and leaves the stored records as
    they were. *)
Theorem processTarget_rerun (file : string) (apis : list Api)
    (w w1 w2 : world) (r1 : TargetResult) :
  processTarget file apis w = Some (r1, w1) →
  success r1 = true →
  net w2 = net w →
  disk w2 !! file = disk w1 !! file →
  ∃ r2 w2',
    processTarget file apis w2 = Some (r2, w2') ∧
    newTotal r2 = 0 ∧
    dupTotal r2 = newTotal r1 + dupTotal r1 ∧
    total r2 = total r1 ∧
    loaded (disk w2' !! file) = loaded (disk w1 !! file).
Proof.
  intros Hrun Hsaved Hnet Hdisk.
  destruct (processTarget_saved _ _ _ _ _ Hrun) as (items & n' & evs & Hwalks & Hres).
  cbv zeta in Hres. destruct Hres as (Htotal & Hnew & Hdup & Hd). rewrite Hsaved in Hd.
  destruct Hd as (d & Hd & Hdata).
  set (old := loaded (disk w !! file)) in *.
  set (s0 := list_to_set (rec_id <$> old) : gset jsval) in *.
  destruct (absorb_fold_spec items s0) as (_ & _ & Hcount & _ & Hmem).
  destruct (foldl absorb (mkResult [] 0 0, s0) items) as [[news n1 d1] s1].
  simpl in *.
  assert (loaded (disk w2 !! file) = old ++ news) as Hold2 by (by rewrite Hdisk, Hd).
  rewrite processTarget_run, Hnet, Hwalks. cbv zeta. rewrite Hold2.
  rewrite absorb_fold_all_known; cycle 1.
  { intros x Hx. rewrite fmap_app. destruct (decide (x ∈ s0)) as [Hin|Hnotin].
    - unfold s0 in Hin. set_solver.
    - assert (x ∈ rec_id <$> news) by (by apply Hmem). set_solver. }
  simpl. rewrite app_nil_r, saveData_run.
  case_bool_decide; (eexists _, _; split; [done|]); simpl;
    (split_and!; [done|lia|done|]).
  - by rewrite Hdisk, Hd.
  - by rewrite lookup_insert_eq, Hd.
Qed.

Lemma processTarget_rerun_witness :
  let A := mkApi "Basic API" "https://catalog.example/items?Limit=30" "emotedata.json" in
  let B := mkApi "Latest API" "https://catalog.example/items?SortType=3" "emotedata.json" in
  let page := [Responds 200 (Json (mkPayload (Some [mkItem (JNum 7) (JStr "wave") None]) JNull))] in
  let w := mkWorld [page; page] ∅ ∅ [] 0 [] in
  ∃ r1 w1, processTarget "emotedata.json" [A; B] w = Some (r1, w1) ∧
    ∃ r2 w2',
      processTarget "emotedata.json" [A; B] (set_net [page; page] w1) = Some (r2, w2') ∧
      newTotal r2 = 0 ∧
      dupTotal r2 = newTotal r1 + dupTotal r1 ∧
      total r2 = total r1 ∧
      loaded (disk w2' !! "emotedata.json") = loaded (disk w1 !! "emotedata.json").
Proof.
  intros A B page w.
  destruct (processTarget "emotedata.json" [A; B] w) as [[r1 w1]|] eqn:Hrun;
    [|by vm_compute in Hrun].
  exists r1, w1. split; [done|].
  apply (processTarget_rerun "emotedata.json" [A; B] w w1 (set_net [page; page] w1) r1 Hrun).
  - vm_compute in Hrun. by injection Hrun as <- _.
  - reflexivity.
  - reflexivity.
Defined.

(** C1, as the claim has it, fails: two sources of one target return the
    same item; the first run counts one new and one duplicate, the second
    run counts two duplicates, which is not the one new of the first. *)
Lemma second_run_counts_every_item :
  let A := mkApi "Basic API" "https://catalog.example/items?Limit=30" "emotedata.json" in
  let B := mkApi "Latest API" "https://catalog.example/items?SortType=3" "emotedata.json" in
  let page := [Responds 200 (Json (mkPayload (Some [mkItem (JNum 7) (JStr "wave") None]) JNull))] in
  let w := mkWorld [page; page] ∅ ∅ [] 0 [] in
  match processTarget "emotedata.json" [A; B] w with
  | Some (r1, w1) =>
      success r1 = true ∧ newTotal r1 = 1 ∧ dupTotal r1 = 1 ∧
      match processTarget "emotedata.json" [A; B] (set_net (net w) w1) with
      | Some (r2, _) => newTotal r2 = 0 ∧ dupTotal r2 = 2 ∧ dupTotal r2 ≠ newTotal r1
      | None => False
      end
  | None => False
  end.
Proof. vm_compute. split_and!; done. Qed.

(** ** Whole runs *)

(** Page 2 of 3 fails: the call returns the one new record of page 1 and
    counts the known item of page 1; page 3 is never asked for. *)
Example fetchAPI_page_two_of_three_fails :
  let api := mkApi "Basic API" "https://catalog.example/items?Limit=30" "emotedata.json" in
  let p1 := mkPayload (Some [mkItem (JNum 1) (JStr "a") None; mkItem (JNum 2) (JStr "b") None])
                      (JStr "c1") in
  let p3 := mkPayload (Some [mkItem (JNum 3) (JStr "c") None]) JNull in
  let w := mkWorld [[Responds 200 (Json p1)]; [Responds 500 Garbled]; [Responds 200 (Json p3)]]
                   ∅ ∅ [{[JNum 2]}] 0 [] in
  (λ rw, (rw.1, net rw.2, trace rw.2)) <$> fetchAPI api (mkExisting [] 0) w
  = Some (mkResult [mkRecord (JNum 1) (JStr "a") None] 1 1,
          [[Responds 200 (Json p3)]],
          [Get "https://catalog.example/items?Limit=30"; Sleep 1000;
           Get "https://catalog.example/items?Limit=30&Cursor=c1"]).
Proof. vm_compute. reflexivity. Qed.

(** The three sources of the program, each answering with the same single
    item: the two sources of emotedata.json share one index, the target
    animationdata.json has its own. *)
Example processAPIs_three_sources :
  let page := [Responds 200 (Json (mkPayload (Some [mkItem (JNum 7) (JStr "wave") None]) JNull))] in
  let w := mkWorld [page; page; page] ∅ ∅ [] 0 [] in
  fst <$> processAPIs w
  = Some [("emotedata.json", mkTarget true 1 1 1);
          ("animationdata.json", mkTarget true 1 1 0)].
Proof. vm_compute. reflexivity. Qed.

(** * Further properties of the code *)

(** ** Records *)

Lemma addBundled_dropped st b : retained b = false → addBundled st b = st.
Proof. intros Hb. destruct st as [m c]. unfold addBundled. by rewrite Hb. Qed.

Lemma foldl_addBundled_kept bs : ∀ st,
  foldl addBundled st (kept bs) = foldl addBundled st bs.
Proof.
  induction bs as [|b bs IH]; intros st; [done|].
  unfold kept in *. simpl. destruct (retained b) eqn:Hb; simpl.
  - apply IH.
  - rewrite IH. by rewrite addBundled_dropped.
Qed.

Lemma kept_kept bs : kept (kept bs) = kept bs.
Proof.
  unfold kept. induction bs as [|b bs IH]; [done|].
  simpl. destruct (retained b) eqn:Hb; simpl; [|done]. by rewrite Hb, IH.
Qed.

(** X1: sub-items that the filter drops have no influence on the record:
    the item with only its retained sub-items gives the same record. *)
Theorem makeRecord_ignores_dropped (i n : jsval) (bs : list SubItem) :
  makeRecord (mkItem i n (Some bs)) = makeRecord (mkItem i n (Some (kept bs))).
Proof.
  destruct (makeRecord_bundledItems (mkItem i n (Some bs))) as (Hid & Hname & Hb).
  destruct (makeRecord_bundledItems (mkItem i n (Some (kept bs)))) as (Hid' & Hname' & Hb').
  destruct (makeRecord (mkItem i n (Some bs))) as [i1 n1 b1],
           (makeRecord (mkItem i n (Some (kept bs)))) as [i2 n2 b2].
  simpl in *. subst. f_equal. rewrite kept_kept.
  unfold bundle. by rewrite foldl_addBundled_kept.
Qed.

Lemma bundle_size (bs : list SubItem) : size (bundle bs).1 = length (kept bs).
Proof.
  induction bs as [|b bs IH] using rev_ind; [done|].
  rewrite bundle_snoc, kept_snoc.
  destruct (bundle_spec bs) as [Hc Hm].
  destruct (bundle bs) as [m c]. simpl in *. subst c.
  unfold addBundled. destruct (retained b); simpl; [|by rewrite app_nil_r].
  rewrite length_app. simpl. rewrite map_size_insert_None; [lia|].
  destruct (m !! pretty (S (length (kept bs)))) as [v|] eqn:Hv; [|done].
  apply Hm in Hv as (j & b' & Hj & Heq & _).
  apply (inj pretty) in Heq. apply lookup_lt_Some in Hj. lia.
Qed.

(** X2: a [bundledItems] object has as many keys as the item has retained
    sub-items. *)
Theorem bundledItems_size (item : CatalogItem) (bs : list SubItem)
    (m : gmap string (list jsval)) :
  item_bundledItems item = Some bs →
  rec_bundledItems (makeRecord item) = Some m →
  size m = length (kept bs).
Proof.
  intros Hbs Hm. destruct (makeRecord_bundledItems item) as (_ & _ & Hb).
  rewrite Hm, Hbs in Hb. case_decide; [done|]. injection Hb as ->. apply bundle_size.
Qed.

Lemma bundledItems_size_witness :
  size ({[ "1" := [JNum 7]; "2" := [JNum 9] ]} : gmap string (list jsval))
  = length (kept [mkSub (JStr "Hat") (JNum 7); mkSub (JStr "UserOutfit") (JNum 5);
                  mkSub (JStr "Shirt") (JNum 9); mkSub (JStr "Pants") (JNum 0)]).
Proof.
  apply (bundledItems_size
           (mkItem (JNum 1) (JStr "a")
              (Some [mkSub (JStr "Hat") (JNum 7); mkSub (JStr "UserOutfit") (JNum 5);
                     mkSub (JStr "Shirt") (JNum 9); mkSub (JStr "Pants") (JNum 0)]))).
  - reflexivity.
  - vm_compute. reflexivity.
Defined.

(** ** Grouping the sources by output file *)

Lemma pushTo_elem_ne k api acc k' l' :
  k' ≠ k → (k', l') ∈ pushTo k api acc ↔ (k', l') ∈ acc.
Proof.
  intros Hne. induction acc as [|[k0 l0] acc IH]; simpl.
  - rewrite list_elem_of_singleton. split; [by intros [= ? ?]|by intros ?%elem_of_nil].
  - case_bool_decide as Hk.
    + subst k0. rewrite !elem_of_cons. split; (intros [[= ? ?]|?]; [done|by right]).
    + rewrite !elem_of_cons, IH. done.
Qed.

Lemma pushTo_elem_new k api acc l' :
  k ∉ fst <$> acc → (k, l') ∈ pushTo k api acc ↔ l' = [api].
Proof.
  induction acc as [|[k0 l0] acc IH]; simpl.
  - intros _. rewrite list_elem_of_singleton. split; [by intros [= ?]|by intros ->].
  - rewrite ?fmap_cons, not_elem_of_cons. simpl. intros [Hne Hnot].
    rewrite bool_decide_false by done. rewrite elem_of_cons, IH by done.
    split; [intros [[= ? ?]|?]; done|by right].
Qed.

Lemma pushTo_elem_old k api acc l l' :
  NoDup (fst <$> acc) → (k, l) ∈ acc →
  (k, l') ∈ pushTo k api acc ↔ l' = l ++ [api].
Proof.
  induction acc as [|[k0 l0] acc IH]; simpl.
  - by intros _ ?%elem_of_nil.
  - rewrite ?fmap_cons, NoDup_cons, elem_of_cons. simpl. intros [Hk0 Hnd] Hin.
    assert (∀ l1, (k0, l1) ∈ acc → False) as Hk0'.
    { intros l1 Hin1. apply Hk0. apply list_elem_of_fmap. by exists (k0, l1). }
    case_bool_decide as Hk.
    + subst k0. destruct Hin as [[= ->]|Hin]; [|by apply Hk0' in Hin].
      rewrite elem_of_cons. split; [|intros ->; by left].
      intros [[= ->]|Hin']; [done|by apply Hk0' in Hin'].
    + destruct Hin as [[= ? ?]|Hin]; [done|].
      rewrite elem_of_cons, IH by done. split; [intros [[= ? ?]|?]; done|by right].
Qed.

Lemma pushTo_keys k api acc :
  fst <$> pushTo k api acc
  = if decide (k ∈ fst <$> acc) then fst <$> acc else (fst <$> acc) ++ [k].
Proof.
  induction acc as [|[k0 l0] acc IH]; [done|].
  simpl. case_bool_decide as Hk; rewrite ?fmap_cons; simpl.
  - subst. rewrite decide_True; [done|by left].
  - rewrite IH. destruct (decide (k ∈ fst <$> acc)) as [Hin|Hnot].
    + rewrite decide_True; [done|by right].
    + rewrite decide_False; [done|]. rewrite not_elem_of_cons. done.
Qed.

Lemma grouped_snoc apis api :
  grouped (apis ++ [api]) = pushTo (outputFile api) api (grouped apis).
Proof. unfold grouped. by rewrite foldl_app. Qed.

Lemma grouped_keys_NoDup apis : NoDup (fst <$> grouped apis).
Proof.
  induction apis as [|api apis IH] using rev_ind; [constructor|].
  rewrite grouped_snoc, pushTo_keys. case_decide; [done|].
  apply NoDup_app. split_and!; [done| |apply NoDup_singleton].
  intros x Hx ->%list_elem_of_singleton. done.
Qed.

Lemma filter_file_snoc k apis api :
  filter (λ a, outputFile a = k) (apis ++ [api])
  = filter (λ a, outputFile a = k) apis ++ (if decide (outputFile api = k) then [api] else []).
Proof.
  by rewrite filter_app.
Qed.

Lemma filter_file_nil k (apis : list Api) :
  k ∉ outputFile <$> apis → filter (λ a, outputFile a = k) apis = [].
Proof.
  induction apis as [|a apis IH]; [done|].
  rewrite fmap_cons, not_elem_of_cons. intros [Hne Hnot].
  rewrite filter_cons_False by done. by apply IH.
Qed.

(** X3: the groups are keyed by distinct file names, and the group of a
    file is the list of the sources that name it, in their order in [APIs];
    there is a group for every file named and for no other. *)
Theorem grouped_by_outputFile (apis : list Api) :
  NoDup (fst <$> grouped apis) ∧
  ∀ k l, (k, l) ∈ grouped apis ↔
         k ∈ outputFile <$> apis ∧ l = filter (λ a, outputFile a = k) apis.
Proof.
  split; [apply grouped_keys_NoDup|].
  induction apis as [|api apis IH] using rev_ind.
  - intros k l. simpl. split; [by intros ?%elem_of_nil|by intros [?%elem_of_nil _]].
  - intros k l. rewrite grouped_snoc, fmap_app, elem_of_app, filter_file_snoc.
    simpl. rewrite list_elem_of_singleton.
    destruct (decide (outputFile api = k)) as [<-|Hne].
    + destruct (decide (outputFile api ∈ outputFile <$> apis)) as [Hin|Hnot].
      * rewrite (pushTo_elem_old _ _ _ (filter (λ a, outputFile a = outputFile api) apis));
          [|apply grouped_keys_NoDup|by apply IH].
        split; [by intros ->; split; [right|]|by intros [_ ->]].
      * rewrite pushTo_elem_new, filter_file_nil by
          (try done; intros ([k0 l0] & ? & Hk)%list_elem_of_fmap; simpl in *; subst;
           by apply IH in Hk as [? _]).
        split; [by intros ->; split; [right|]|by intros [_ ->]].
    + rewrite pushTo_elem_ne, IH, app_nil_r by done.
      split; [intros [? ->]; split; [by left|done]|intros [[?|?] ->]; done].
Qed.
(** ** More on the fetcher *)

(** Every call that settles has this shape: network errors that were
    retried, then one last outcome, which decides. *)
Lemma tryFetch_inv url retries script : ∀ a r evs,
  tryFetch url retries a script = Some (r, evs) →
  ∃ es o rest,
    script = (ErrorEvent <$> es) ++ o :: rest ∧
    r = verdict o ∧
    evs = backoff url a (length es) ++ [Get url] ∧
    (es = [] ∨ (a + Z.of_nat (length es) ≤ retries)%Z) ∧
    (∀ e, o = ErrorEvent e → (retries ≤ a + Z.of_nat (length es))%Z).
Proof.
  induction script as [|o script IH]; intros a r evs Hrun; [done|].
  destruct o as [e| |statusCode b]; simpl in Hrun.
  - case_bool_decide as Hlt.
    + destruct (tryFetch url retries (a + 1)%Z script) as [[r' evs']|] eqn:Hrec; [|done].
      simpl in Hrun. injection Hrun as <- <-.
      apply IH in Hrec as (es & o & rest & -> & -> & -> & Hes & Hlast).
      exists (e :: es), o, rest. simpl. split_and!; [done..| |].
      * right. destruct Hes as [->|Hes]; simpl; lia.
      * intros e' He'. specialize (Hlast e' He'). lia.
    + injection Hrun as <- <-. exists [], (ErrorEvent e), script.
      simpl. split_and!; [done..|by left|]. intros _ _. lia.
  - injection Hrun as <- <-. exists [], TimerFires, script.
    simpl. split_and!; [done..|by left|done].
  - exists [], (Responds statusCode b), script. simpl.
    split_and!; [done| | |by left|done].
    + case_bool_decide; [by injection Hrun as <- _|]. destruct b; by injection Hrun as <- _.
    + case_bool_decide; [by injection Hrun as _ <-|]. destruct b; by injection Hrun as _ <-.
Qed.

Lemma fetchJSON_inv url retries w r w' :
  fetchJSON url retries w = Some (r, w') →
  ∃ script n' evs,
    net w = script :: n' ∧
    tryFetch url retries 1 script = Some (r, evs) ∧
    w' = after n' evs (heap w) w.
Proof.
  rewrite fetchJSON_run. destruct (net w) as [|script n']; [done|].
  destruct (tryFetch url retries 1 script) as [[r' evs]|] eqn:Hrun; [|done].
  intros [= <- <-]. by exists script, n', evs.
Qed.

(** X4: a call resolves only with the payload of a response that had
    status 200 and a body that parses, reached after nothing but network
    errors; it uses up its own script and leaves disk and heap alone. *)
Theorem fetchJSON_resolves_only_on_200 (url : string) (retries : Z) (w w' : world)
    (p : Payload) :
  fetchJSON url retries w = Some (Resolved p, w') →
  ∃ es rest n',
    net w = ((ErrorEvent <$> es) ++ Responds 200 (Json p) :: rest) :: n' ∧
    net w' = n' ∧ disk w' = disk w ∧ heap w' = heap w.
Proof.
  intros (script & n' & evs & Hnet & Hrun & ->)%fetchJSON_inv.
  apply tryFetch_inv in Hrun as (es & o & rest & -> & Hv & _).
  exists es, rest, n'. split_and!; [|done..]. rewrite Hnet. do 3 f_equal.
  destruct o as [e| |statusCode b]; simpl in Hv; [done..|].
  case_bool_decide as Hs; [done|]. destruct b; [done| |done]. injection Hv as ->.
  f_equal. destruct (decide (statusCode = 200%Z)); [done|]. by destruct Hs.
Qed.

Lemma fetchJSON_resolves_only_on_200_witness :
  let p := mkPayload None JNull in
  let w := mkWorld [[ErrorEvent "EPIPE"; Responds 200 (Json p); TimerFires]; []] ∅ ∅ [] 0 [] in
  ∃ es rest n',
    net w = ((ErrorEvent <$> es) ++ Responds 200 (Json p) :: rest) :: n' ∧
    net (emit [Get "u"; Sleep 2000; Get "u"] (set_net [[]] w)) = n' ∧
    disk (emit [Get "u"; Sleep 2000; Get "u"] (set_net [[]] w)) = disk w ∧
    heap (emit [Get "u"; Sleep 2000; Get "u"] (set_net [[]] w)) = heap w.
Proof.
  intros p w.
  apply (fetchJSON_resolves_only_on_200 "u" 3 w
           (emit [Get "u"; Sleep 2000; Get "u"] (set_net [[]] w)) p).
  reflexivity.
Defined.

(** X5: a call never gives up on a network error before it has made
    [retries] attempts. *)
Theorem fetchJSON_network_error_after_all_attempts (url : string) (retries : Z)
    (w w' : world) (e : string) :
  fetchJSON url retries w = Some (Rejected (NetworkError e), w') →
  ∃ evs, trace w' = trace w ++ evs ∧ (retries ≤ Z.of_nat (attempts evs))%Z.
Proof.
  intros (script & n' & evs & Hnet & Hrun & ->)%fetchJSON_inv.
  apply tryFetch_inv in Hrun as (es & o & rest & -> & Hv & -> & _ & Hlast).
  eexists. split; [done|]. rewrite attempts_backoff. unfold attempts. simpl.
  destruct o as [e'| |statusCode b]; simpl in Hv.
  - specialize (Hlast e' eq_refl). lia.
  - done.
  - case_bool_decide; [done|]. by destruct b.
Qed.

Lemma fetchJSON_network_error_after_all_attempts_witness :
  let w := mkWorld [[ErrorEvent "a"; ErrorEvent "b"; ErrorEvent "c"]] ∅ ∅ [] 0 [] in
  ∃ evs, trace (emit [Get "u"; Sleep 2000; Get "u"; Sleep 4000; Get "u"] (set_net [] w))
         = trace w ++ evs ∧ (3 ≤ Z.of_nat (attempts evs))%Z.
Proof.
  intros w.
  apply (fetchJSON_network_error_after_all_attempts "u" 3 w
           (emit [Get "u"; Sleep 2000; Get "u"; Sleep 4000; Get "u"] (set_net [] w)) "c").
  reflexivity.
Defined.

Lemma elapsed_backoff url n : ∀ a,
  elapsed (backoff url a n) = (1000 * Z.of_nat n * (2 * a + Z.of_nat n - 1))%Z.
Proof.
  induction n as [|n IH]; intros a; [simpl; lia|].
  cbn [backoff elapsed foldr]. fold (elapsed (backoff url (a + 1) n)). rewrite IH. lia.
Qed.

(** X6: the time a call spends waiting between attempts is
    1000 * n * (n + 1) ms, where n is the number of attempts that were
    retried; the call makes n + 1 requests, and n stays below [retries]. *)
Theorem fetchJSON_waiting_time (url : string) (retries : Z) (w w' : world) (r : settled) :
  fetchJSON url retries w = Some (r, w') →
  ∃ (evs : list event) (n : nat),
    trace w' = trace w ++ evs ∧
    attempts evs = S n ∧
    elapsed evs = (1000 * Z.of_nat n * (Z.of_nat n + 1))%Z ∧
    (n = 0 ∨ (Z.of_nat n < retries)%Z).
Proof.
  intros (script & n' & evs & Hnet & Hrun & ->)%fetchJSON_inv.
  apply tryFetch_inv in Hrun as (es & o & rest & -> & _ & -> & Hes & _).
  eexists _, (length es). split_and!; [done| | |].
  - rewrite attempts_backoff. unfold attempts. simpl. lia.
  - rewrite elapsed_app, elapsed_backoff. simpl. lia.
  - destruct Hes as [->|Hes]; [by left|right; lia].
Qed.

Lemma fetchJSON_waiting_time_witness :
  let w := mkWorld [[ErrorEvent "a"; ErrorEvent "b"; TimerFires]] ∅ ∅ [] 0 [] in
  ∃ (evs : list event) (n : nat),
    trace (emit [Get "u"; Sleep 2000; Get "u"; Sleep 4000; Get "u"] (set_net [] w))
    = trace w ++ evs ∧
    attempts evs = S n ∧
    elapsed evs = (1000 * Z.of_nat n * (Z.of_nat n + 1))%Z ∧
    (n = 0 ∨ (Z.of_nat n < 3)%Z).
Proof.
  intros w.
  apply (fetchJSON_waiting_time "u" 3 w
           (emit [Get "u"; Sleep 2000; Get "u"; Sleep 4000; Get "u"] (set_net [] w))
           (Rejected RequestTimeout)).
  reflexivity.
Defined.

(** ** More on the paginator *)

(** X7: a call adds to the index exactly the ids of the records it returns;
    these ids are pairwise distinct and none was in the index before; the
    call writes nothing to the disk. *)
Theorem fetchAPI_grows_index (api : Api) (ed : ExistingData) (w w' : world)
    (r : FetchResult) (s : gset jsval) :
  heap w !! ed_ids ed = Some s →
  fetchAPI api ed w = Some (r, w') →
  heap w' = <[ed_ids ed := s ∪ list_to_set (rec_id <$> fr_items r)]> (heap w) ∧
  NoDup (rec_id <$> fr_items r) ∧
  (∀ x, x ∈ rec_id <$> fr_items r → x ∉ s) ∧
  newCount r = length (fr_items r) ∧
  disk w' = disk w ∧ readonly w' = readonly w.
Proof.
  intros Hs Hrun. rewrite (fetchAPI_run _ _ _ s) in Hrun by done.
  destruct (walk api (JStr "") (net w)) as [[[items n'] evs]|]; [|done].
  injection Hrun as <- <-.
  destruct (absorb_fold_spec items s) as (Hs' & Hnew & _ & Hnodup & Hmem).
  simpl in *. split_and!; [|done| |done..].
  - f_equal. rewrite Hs'. apply set_eq. intros x.
    rewrite !elem_of_union, !elem_of_list_to_set, Hmem.
    destruct (decide (x ∈ s)); naive_solver.
  - intros x Hx. by apply Hmem in Hx as [_ ?].
Qed.

Lemma fetchAPI_grows_index_witness :
  let api := mkApi "Basic API" "https://catalog.example/items?Limit=30" "emotedata.json" in
  let item n := mkItem (JNum n) (JStr "a") None in
  let w := mkWorld [[Responds 200 (Json (mkPayload (Some [item 1%Z; item 2%Z; item 1%Z]) JNull))]]
                   ∅ ∅ [{[JNum 2]}] 0 [] in
  ∃ r w', fetchAPI api (mkExisting [] 0) w = Some (r, w') ∧
    heap w' = <[0 := {[JNum 2]} ∪ list_to_set (rec_id <$> fr_items r)]> (heap w) ∧
    NoDup (rec_id <$> fr_items r) ∧
    (∀ x, x ∈ rec_id <$> fr_items r → x ∉ ({[JNum 2]} : gset jsval)) ∧
    newCount r = length (fr_items r) ∧
    disk w' = disk w ∧ readonly w' = readonly w.
Proof.
  intros api item w.
  destruct (fetchAPI api (mkExisting [] 0) w) as [[r w']|] eqn:Hrun; [|by vm_compute in Hrun].
  exists r, w'. split; [done|].
  by apply (fetchAPI_grows_index api (mkExisting [] 0) w w' r {[JNum 2]}).
Defined.

Lemma walk_to_last api (scripts : list (list outcome)) (ps : list Payload)
    last q rest :
  Forall2 (λ script p, settles script = Some (Resolved p) ∧
                       another (nextPageCursor p) = true) scripts ps →
  settles last = Some (Resolved q) →
  another (nextPageCursor q) = false →
  ∀ cursor, ∃ evs,
    walk api cursor (scripts ++ last :: rest)
    = Some (concat (visited <$> ps) ++ visited q, rest, evs).
Proof.
  intros Hgood Hlast Hstop. induction Hgood as [|script p scripts ps [Hp Hnext] _ IH]; intros cursor.
  - simpl. destruct (settles_tryFetch (pageUrl api cursor) _ _ Hlast) as [evs ->].
    rewrite Hstop. by eexists.
  - simpl. destruct (settles_tryFetch (pageUrl api cursor) _ _ Hp) as [evs ->].
    rewrite Hnext. destruct (IH (nextPageCursor p)) as [evs' ->].
    rewrite <- app_assoc. by eexists.
Qed.

(** X8: a call follows the cursors to the first page whose cursor is
    absent, empty or blank (or no string): when k-1 pages resolve and name a
    next page and page k resolves without naming one, the call returns what
    the callback makes of the items of all k pages, in order, and asks for
    nothing more. *)
Theorem fetchAPI_walks_to_last_page (api : Api) (ed : ExistingData) (w : world)
    (s : gset jsval) (scripts : list (list outcome)) (ps : list Payload)
    (last : list outcome) (q : Payload) (rest : list (list outcome)) :
  heap w !! ed_ids ed = Some s →
  net w = scripts ++ last :: rest →
  Forall2 (λ script p, settles script = Some (Resolved p) ∧
                       another (nextPageCursor p) = true) scripts ps →
  settles last = Some (Resolved q) →
  another (nextPageCursor q) = false →
  ∃ r w0 w',
    foldM (onItem ed) (mkResult [] 0 0) (concat (visited <$> ps) ++ visited q) w
      = Some (r, w0) ∧
    fetchAPI api ed w = Some (r, w') ∧
    heap w' = heap w0 ∧ net w' = rest.
Proof.
  intros Hs Hnet Hgood Hlast Hstop.
  rewrite (fetchAPI_run _ _ _ s), (foldM_onItem_run _ _ _ _ s), Hnet by done.
  destruct (walk_to_last api _ _ _ _ rest Hgood Hlast Hstop (JStr "")) as [evs ->].
  by eexists _, _, _.
Qed.

Lemma fetchAPI_walks_to_last_page_witness :
  let api := mkApi "Basic API" "https://catalog.example/items?Limit=30" "emotedata.json" in
  let p1 := mkPayload (Some [mkItem (JNum 1) (JStr "a") None]) (JStr "c1") in
  let p2 := mkPayload (Some [mkItem (JNum 2) (JStr "b") None]) (JStr "  ") in
  let p3 := mkPayload (Some [mkItem (JNum 3) (JStr "c") None]) JNull in
  let w := mkWorld [[ErrorEvent "EPIPE"; Responds 200 (Json p1)]; [Responds 200 (Json p2)];
                    [Responds 200 (Json p3)]] ∅ ∅ [∅] 0 [] in
  ∃ r w0 w',
    foldM (onItem (mkExisting [] 0)) (mkResult [] 0 0)
          (concat (visited <$> [p1]) ++ visited p2) w = Some (r, w0) ∧
    fetchAPI api (mkExisting [] 0) w = Some (r, w') ∧
    heap w' = heap w0 ∧ net w' = [[Responds 200 (Json p3)]].
Proof.
  intros api p1 p2 p3 w.
  apply (fetchAPI_walks_to_last_page api (mkExisting [] 0) w ∅
           [[ErrorEvent "EPIPE"; Responds 200 (Json p1)]] [p1]
           [Responds 200 (Json p2)] p2 [[Responds 200 (Json p3)]]).
  - reflexivity.
  - reflexivity.
  - constructor; [|constructor]. split; vm_compute; reflexivity.
  - vm_compute. reflexivity.
  - vm_compute. reflexivity.
Defined.

Lemma walk_answered_at_once api (ps : list Payload) q rest :
  Forall (λ p, another (nextPageCursor p) = true) ps →
  another (nextPageCursor q) = false →
  ∀ cursor,
    walk api cursor (((λ p, [Responds 200 (Json p)]) <$> (ps ++ [q])) ++ rest)
    = Some (concat (visited <$> ps ++ [q]), rest, requests api cursor (ps ++ [q])).
Proof.
  intros Hgood Hstop. induction Hgood as [|p ps Hnext _ IH]; intros cursor.
  - simpl. rewrite Hstop. by rewrite app_nil_r.
  - simpl. rewrite Hnext, IH. done.
Qed.

(** X9: when every page is answered at the first attempt, the call makes
    one request per page and pauses 1000 ms after each: the first request
    goes to the URL of the source, every later one to that URL with the
    cursor of the page before appended as [&Cursor=]. *)
Theorem fetchAPI_requests (api : Api) (ed : ExistingData) (w : world)
    (s : gset jsval) (ps : list Payload) (q : Payload) (rest : list (list outcome)) :
  heap w !! ed_ids ed = Some s →
  net w = ((λ p, [Responds 200 (Json p)]) <$> (ps ++ [q])) ++ rest →
  Forall (λ p, another (nextPageCursor p) = true) ps →
  another (nextPageCursor q) = false →
  ∃ r w', fetchAPI api ed w = Some (r, w') ∧
          trace w' = trace w ++ requests api (JStr "") (ps ++ [q]) ∧
          net w' = rest.
Proof.
  intros Hs Hnet Hgood Hstop.
  rewrite (fetchAPI_run _ _ _ s), Hnet by done.
  rewrite (walk_answered_at_once api ps q rest Hgood Hstop). by eexists _, _.
Qed.

Lemma fetchAPI_requests_witness :
  let api := mkApi "Basic API" "https://catalog.example/items?Limit=30" "emotedata.json" in
  let p1 := mkPayload (Some [mkItem (JNum 1) (JStr "a") None]) (JStr "c1") in
  let p2 := mkPayload (Some [mkItem (JNum 2) (JStr "b") None]) (JStr "") in
  let w := mkWorld [[Responds 200 (Json p1)]; [Responds 200 (Json p2)]] ∅ ∅ [∅] 0 [] in
  ∃ r w', fetchAPI api (mkExisting [] 0) w = Some (r, w') ∧
          trace w' = trace w ++
            [Get "https://catalog.example/items?Limit=30"; Sleep 1000;
             Get "https://catalog.example/items?Limit=30&Cursor=c1"; Sleep 1000] ∧
          net w' = [].
Proof.
  intros api p1 p2 w.
  apply (fetchAPI_requests api (mkExisting [] 0) w ∅ [p1] p2 []).
  - reflexivity.
  - reflexivity.
  - constructor; [|constructor]. vm_compute. reflexivity.
  - vm_compute. reflexivity.
Defined.

Lemma absorb_fold_sublist (items : list CatalogItem) (s : gset jsval) :
  fr_items (foldl absorb (mkResult [] 0 0, s) items).1 `sublist_of` makeRecord <$> items.
Proof.
  induction items as [|item items IH] using rev_ind; [done|].
  rewrite foldl_app, fmap_app. cbn [foldl].
  destruct (foldl absorb (mkResult [] 0 0, s) items) as [r s1]. simpl in IH.
  unfold absorb. case_bool_decide; simpl.
  - by apply sublist_inserts_r.
  - by apply sublist_app.
Qed.

(** X10: the records a call returns keep the order in which the upstream
    gave the items: they are the records of a subsequence of the items
    walked, and every item walked is counted once, as new or as duplicate. *)
Theorem fetchAPI_keeps_order (api : Api) (ed : ExistingData) (w w' : world)
    (r : FetchResult) (s : gset jsval) :
  heap w !! ed_ids ed = Some s →
  fetchAPI api ed w = Some (r, w') →
  ∃ items evs,
    walk api (JStr "") (net w) = Some (items, net w', evs) ∧
    fr_items r `sublist_of` makeRecord <$> items ∧
    newCount r + duplicateCount r = length items.
Proof.
  intros Hs Hrun. rewrite (fetchAPI_run _ _ _ s) in Hrun by done.
  destruct (walk api (JStr "") (net w)) as [[[items n'] evs]|]; [|done].
  injection Hrun as <- <-. exists items, evs. split_and!; [done| |].
  - apply absorb_fold_sublist.
  - apply absorb_fold_spec.
Qed.

Lemma fetchAPI_keeps_order_witness :
  let api := mkApi "Basic API" "https://catalog.example/items?Limit=30" "emotedata.json" in
  let item n := mkItem (JNum n) (JStr "a") None in
  let w := mkWorld [[Responds 200 (Json (mkPayload (Some [item 3%Z; item 2%Z; item 1%Z]) JNull))]]
                   ∅ ∅ [{[JNum 2]}] 0 [] in
  ∃ r w', fetchAPI api (mkExisting [] 0) w = Some (r, w') ∧
    ∃ items evs,
      walk api (JStr "") (net w) = Some (items, net w', evs) ∧
      fr_items r `sublist_of` makeRecord <$> items ∧
      newCount r + duplicateCount r = length items.
Proof.
  intros api item w.
  destruct (fetchAPI api (mkExisting [] 0) w) as [[r w']|] eqn:Hrun; [|by vm_compute in Hrun].
  exists r, w'. split; [done|].
  by apply (fetchAPI_keeps_order api (mkExisting [] 0) w w' r {[JNum 2]}).
Defined.

(** ** More on the reconciler *)

(** X11: what [saveData] wrote, [loadData] reads back: the same records, and
    an index that holds exactly their ids. *)
Theorem saveData_loadData (items : list PersistedRecord) (file : string) (w w' : world) :
  saveData items file w = Some (true, w') →
  ∃ l w'', loadData file w' = Some (mkExisting items l, w'') ∧
           heap w'' !! l = Some (list_to_set (rec_id <$> items)) ∧
           disk w'' = disk w'.
Proof.
  rewrite saveData_run. case_bool_decide; [done|]. intros [= <-].
  rewrite loadData_run. simpl. rewrite lookup_insert_eq. simpl.
  eexists _, _. split_and!; [done| |done].
  simpl. by rewrite lookup_app_r, Nat.sub_diag.
Qed.

Lemma saveData_loadData_witness :
  let items := [mkRecord (JNum 1) (JStr "a") None; mkRecord (JNum 2) (JStr "b") None] in
  let w := mkWorld [] ∅ ∅ [] 5 [] in
  let w' := set_disk {[ "emotedata.json" := Document (mkDoc JNull 2 5 items) ]} w in
  ∃ l w'', loadData "emotedata.json" w' = Some (mkExisting items l, w'') ∧
           heap w'' !! l = Some (list_to_set (rec_id <$> items)) ∧
           disk w'' = disk w'.
Proof.
  intros items w w'.
  apply (saveData_loadData items "emotedata.json" w w').
  vm_compute. reflexivity.
Defined.

(** X12: a run loses nothing: the document it saves holds the records that
    were loaded, unchanged and in front, followed by the new ones; the
    counts it reports and the [totalItems] it writes fit. *)
Theorem processTarget_appends (file : string) (apis : list Api) (w w' : world)
    (r : TargetResult) :
  processTarget file apis w = Some (r, w') →
  success r = true →
  ∃ d news,
    disk w' !! file = Some (Document d) ∧
    doc_data d = loaded (disk w !! file) ++ news ∧
    newTotal r = length news ∧
    total r = length (doc_data d) ∧
    totalItems d = total r ∧
    keyword d = JNull.
Proof.
  rewrite processTarget_run.
  destruct (walks apis (net w)) as [[[items n'] evs]|]; [|done].
  cbv zeta. rewrite saveData_run. case_bool_decide; intros [= <- <-]; [done|]. intros _.
  eexists _, _. simpl. rewrite lookup_insert_eq. split_and!; [done..| |done|done|done].
  apply absorb_fold_spec.
Qed.

Lemma processTarget_appends_witness :
  let api := mkApi "Basic API" "https://catalog.example/items?Limit=30" "emotedata.json" in
  let item n := mkItem (JNum n) (JStr "a") None in
  let w := mkWorld [[Responds 200 (Json (mkPayload (Some [item 2%Z; item 1%Z]) (JStr "c")))]; [TimerFires]]
                   {[ "emotedata.json" :=
                        Document (mkDoc JNull 1 0 [mkRecord (JNum 1) (JStr "old") None]) ]}
                   ∅ [] 0 [] in
  ∃ r w', processTarget "emotedata.json" [api] w = Some (r, w') ∧
    ∃ d news,
      disk w' !! "emotedata.json" = Some (Document d) ∧
      doc_data d = loaded (disk w !! "emotedata.json") ++ news ∧
      newTotal r = length news ∧
      total r = length (doc_data d) ∧
      totalItems d = total r ∧
      keyword d = JNull.
Proof.
  intros api item w.
  destruct (processTarget "emotedata.json" [api] w) as [[r w']|] eqn:Hrun;
    [|by vm_compute in Hrun].
  exists r, w'. split; [done|].
  apply (processTarget_appends "emotedata.json" [api] w w' r Hrun).
  vm_compute in Hrun. by injection Hrun as <- _.
Defined.

Lemma processTarget_flag file apis w w' r :
  processTarget file apis w = Some (r, w') →
  success r = bool_decide (file ∉ readonly w) ∧ readonly w' = readonly w.
Proof.
  rewrite processTarget_run.
  destruct (walks apis (net w)) as [[[items n'] evs]|]; [|done].
  cbv zeta. rewrite saveData_run. simpl.
  case_bool_decide; intros [= <- <-]; simpl.
  - by rewrite bool_decide_false by auto.
  - by rewrite bool_decide_true.
Qed.

(** X14: a run of one target leaves every other file of the disk alone. *)
Theorem processTarget_other_files (file : string) (apis : list Api) (w w' : world)
    (r : TargetResult) (other : string) :
  processTarget file apis w = Some (r, w') →
  other ≠ file →
  disk w' !! other = disk w !! other.
Proof.
  rewrite processTarget_run.
  destruct (walks apis (net w)) as [[[items n'] evs]|]; [|done].
  cbv zeta. rewrite saveData_run. case_bool_decide; intros [= <- <-] Hne; [done|].
  simpl. by rewrite lookup_insert_ne.
Qed.

Lemma processTarget_other_files_witness :
  let api := mkApi "Basic API" "https://catalog.example/items?Limit=30" "emotedata.json" in
  let w := mkWorld [[Responds 200 (Json (mkPayload (Some [mkItem (JNum 2) (JStr "a") None]) JNull))]]
                   {[ "animationdata.json" := Broken ParseThrows ]} ∅ [] 0 [] in
  ∃ r w', processTarget "emotedata.json" [api] w = Some (r, w') ∧
          disk w' !! "animationdata.json" = disk w !! "animationdata.json".
Proof.
  intros api w.
  destruct (processTarget "emotedata.json" [api] w) as [[r w']|] eqn:Hrun;
    [|by vm_compute in Hrun].
  exists r, w'. split; [done|].
  by apply (processTarget_other_files "emotedata.json" [api] w w' r "animationdata.json" Hrun).
Defined.

(** X15: what a run of a target returns depends on the answers of the
    network, on the file of the target and on whether it can be written, and
    on nothing else: not on [Set]s made before (the index is made anew from
    the file), not on other files, not on the time. *)
Theorem processTarget_own_index (file : string) (apis : list Api) (w w' w2 : world)
    (r : TargetResult) :
  processTarget file apis w = Some (r, w') →
  net w2 = net w →
  disk w2 !! file = disk w !! file →
  (file ∈ readonly w2 ↔ file ∈ readonly w) →
  ∃ w2', processTarget file apis w2 = Some (r, w2').
Proof.
  rewrite !processTarget_run. intros Hrun -> -> Hro.
  destruct (walks apis (net w)) as [[[items n'] evs]|]; [|done].
  cbv zeta in *. rewrite saveData_run in *. simpl in *.
  rewrite (bool_decide_ext _ _ Hro).
  case_bool_decide; injection Hrun as <- _; by eexists.
Qed.

Lemma processTarget_own_index_witness :
  let api := mkApi "Animation API" "https://catalog.example/items?Subcategory=38" "animationdata.json" in
  let page := [Responds 200 (Json (mkPayload (Some [mkItem (JNum 7) (JStr "wave") None]) JNull))] in
  let w := mkWorld [page] ∅ ∅ [] 0 [] in
  let w2 := mkWorld [page] {[ "emotedata.json" := NoData ]} ∅ [{[JNum 7]}] 9 [Sleep 1000] in
  ∃ r w', processTarget "animationdata.json" [api] w = Some (r, w') ∧
    ∃ w2', processTarget "animationdata.json" [api] w2 = Some (r, w2').
Proof.
  intros api page w w2.
  destruct (processTarget "animationdata.json" [api] w) as [[r w']|] eqn:Hrun;
    [|by vm_compute in Hrun].
  exists r, w'. split; [done|].
  apply (processTarget_own_index "animationdata.json" [api] w w' w2 r Hrun).
  - reflexivity.
  - vm_compute. reflexivity.
  - done.
Defined.

(** ** The whole program *)

Lemma targetsLoop_spec gs : ∀ rs w results w',
  targetsLoop rs gs w = Some (results, w') →
  readonly w' = readonly w ∧
  ∃ new, results = rs ++ new ∧
         fst <$> new = fst <$> gs ∧
         ∀ file r, (file, r) ∈ new → success r = bool_decide (file ∉ readonly w).
Proof.
  induction gs as [|[file apis] gs IH]; intros rs w results w'.
  - intros [= <- <-]. split; [done|]. exists []. rewrite app_nil_r.
    split_and!; [done..|]. by intros ?? ?%elem_of_nil.
  - unfold targetsLoop. cbn [foldM]. rewrite !bind_run.
    destruct (processTarget file apis w) as [[r w1]|] eqn:Hrun; [|done].
    apply processTarget_flag in Hrun as [Hflag Hro].
    cbn [mret M_ret]. intros Hrest. apply IH in Hrest as (Hro' & new & -> & Hkeys & Hnew).
    split; [congruence|]. exists ((file, r) :: new).
    rewrite <- app_assoc. split_and!; [done|by rewrite !fmap_cons, Hkeys|].
    intros file' r' [[= -> ->]|Hin]%elem_of_cons; [done|].
    rewrite (Hnew _ _ Hin). by rewrite Hro.
Qed.

Lemma grouped_keys_elem apis k :
  k ∈ fst <$> grouped apis ↔ k ∈ outputFile <$> apis.
Proof.
  induction apis as [|api apis IH] using rev_ind; [done|].
  rewrite grouped_snoc, pushTo_keys, fmap_app, elem_of_app. simpl.
  rewrite list_elem_of_singleton. case_decide as Hin.
  - rewrite IH. split; [by left|]. intros [?|Heq]; [done|]. subst. by apply IH.
  - rewrite elem_of_app, list_elem_of_singleton, IH. done.
Qed.

(** X16: the program handles every output file named by a source once, in
    the order of first mention, whether or not an earlier save failed; the
    entry of a file reports success exactly when the file can be written. *)
Theorem processAPIs_every_target (w w' : world) (results : list (string * TargetResult)) :
  processAPIs w = Some (results, w') →
  fst <$> results = ["emotedata.json"; "animationdata.json"] ∧
  ∀ file r, (file, r) ∈ results → (success r = true ↔ file ∉ readonly w).
Proof.
  intros Hrun. apply (targetsLoop_spec (grouped APIs) []) in Hrun
    as (_ & new & -> & Hkeys & Hnew).
  split; [done|]. intros file r Hin. rewrite (Hnew _ _ Hin). by rewrite bool_decide_eq_true.
Qed.

Lemma processAPIs_every_target_witness :
  let page := [Responds 200 (Json (mkPayload (Some [mkItem (JNum 7) (JStr "wave") None]) JNull))] in
  let w := mkWorld [page; page; page] ∅ {[ "emotedata.json" ]} [] 0 [] in
  ∃ results w', processAPIs w = Some (results, w') ∧
    fst <$> results = ["emotedata.json"; "animationdata.json"] ∧
    ∀ file r, (file, r) ∈ results → (success r = true ↔ file ∉ readonly w).
Proof.
  intros page w.
  destruct (processAPIs w) as [[results w']|] eqn:Hrun; [|by vm_compute in Hrun].
  exists results, w'. split; [done|].
  apply (processAPIs_every_target w w' results Hrun).
Defined.

Lemma allOk_from results : ∀ ok,
  foldl (λ ok '((_, r) : string * TargetResult), if negb (success r) then false else ok) ok results
  = ok && forallb (λ fr : string * TargetResult, success fr.2) results.
Proof.
  induction results as [|[file r] results IH]; intros ok; simpl.
  - by rewrite andb_true_r.
  - rewrite IH. destruct (success r), ok; simpl; try done.
Qed.

(** X17: the exit code is 0 when every output file of the sources could be
    written, and 1 when one of them could not; failed requests alone never
    make it 1. *)
Theorem main_exit_code (w w' : world) (code : Z) :
  main w = Some (code, w') →
  (code = 0%Z ∧ ∀ api, api ∈ APIs → outputFile api ∉ readonly w) ∨
  (code = 1%Z ∧ ∃ api, api ∈ APIs ∧ outputFile api ∈ readonly w).
Proof.
  unfold main. rewrite bind_run.
  destruct (processAPIs w) as [[results w1]|] eqn:Hrun; [|done].
  intros [= <- <-].
  apply (targetsLoop_spec (grouped APIs) []) in Hrun as (_ & new & -> & Hkeys & Hnew).
  simpl app. unfold allOk. rewrite allOk_from. simpl andb.
  destruct (forallb (λ fr : string * TargetResult, success fr.2) new) eqn:Hall.
  - left. split; [done|]. intros api Hapi.
    assert (outputFile api ∈ fst <$> new) as ([file r] & -> & Hin)%list_elem_of_fmap.
    { rewrite Hkeys. apply grouped_keys_elem, list_elem_of_fmap. by exists api. }
    simpl. rewrite forallb_forall in Hall.
    assert (success r = true) as Hs by (by apply (Hall (file, r)), list_elem_of_In).
    rewrite (Hnew _ _ Hin) in Hs. by apply bool_decide_eq_true in Hs.
  - right. split; [done|].
    assert (∃ fr, fr ∈ new ∧ success fr.2 = false) as ([file r] & Hin & Hs).
    { clear -Hall. induction new as [|fr new IH]; [done|]. simpl in Hall.
      destruct (success fr.2) eqn:Hs.
      - destruct (IH Hall) as (fr' & ? & ?). exists fr'. split; [by right|done].
      - exists fr. split; [by left|done]. }
    simpl in Hs. rewrite (Hnew _ _ Hin) in Hs. apply bool_decide_eq_false in Hs.
    assert (file ∈ outputFile <$> APIs) as (api & -> & Hapi)%list_elem_of_fmap.
    { apply grouped_keys_elem. rewrite <- Hkeys. apply list_elem_of_fmap. by exists (file, r). }
    exists api. split; [done|]. by apply dec_stable.
Qed.

Lemma main_exit_code_witness :
  let page := [Responds 503 Garbled] in
  let w := mkWorld [page; page; page] ∅ ∅ [] 0 [] in
  ∃ code w', main w = Some (code, w') ∧
    ((code = 0%Z ∧ ∀ api, api ∈ APIs → outputFile api ∉ readonly w) ∨
     (code = 1%Z ∧ ∃ api, api ∈ APIs ∧ outputFile api ∈ readonly w)).
Proof.
  intros page w.
  destruct (main w) as [[code w']|] eqn:Hrun; [|by vm_compute in Hrun].
  exists code, w'. split; [done|].
  apply (main_exit_code w w' code Hrun).
Defined.
